(** * Merged-blocks writer: bundling a block stream into 100-block files

    A shallow embedding of [merged_blocks_writer.go] (package [sftools]) and
    the properties of its bundle accumulator: boundary arithmetic, file
    naming, the flush procedure, the per-block state machine and the two
    duplicate scans.

    Conventions.  A Go [uint64] is an [N] whose arithmetic is wrapped with
    [u64] wherever the source adds; a Go [map] is a [gmap]; a Go [error]
    result is [option error] ([None] is [nil]).  The store, the block codec
    and the logger are collaborators: what the writer does to them is
    recorded as a list of [event]s. *)

From Stdlib Require Import NArith ZArith Ascii String List Lia Zify.
From stdpp Require Import base option list numbers strings gmap.

Local Open Scope N_scope.

(** [lia] is asked to reason about [/] and [mod] as well. *)
Ltac Zify.zify_post_hook ::= Z.to_euclidean_division_equations.

(** ** Data model *)

(** Modelled from the spec: [bstream.Block] is declared outside this
    repository.  The writer reads its number and its id only; everything
    else is opaque payload. *)
Record Block : Type := mkBlock {
  Number  : N;
  Id      : string;
  Payload : string
}.

(** The values of Go's [error] that the writer returns or passes on: its
    own five, and the errors of the store and the codec, which it hands to
    its caller as they are. *)
Inductive error : Type :=
| io_EOF
| ErrTweakingBlock (cause : string)
| ErrUnexpectedBlock (blk : Block) (firstStreamable : N)
| ErrNoBlocksToWrite
| ErrBundleSize (got : nat) (lowBlockNum : N)
| ErrDownstream (cause : string).

(** What the collaborators observe: calls of [store.WriteObject] with the
    blocks streamed into the pipe, and the [logger.Error] lines.  Debug and
    Info lines are not recorded. *)
Inductive event : Type :=
| WriteObject (file : string) (bundle : list Block)
| LogWritingToStore (err : error)
| LogDuplicateNumber (block_num : N) (block1 block2 : Block)
| LogDuplicateId (block_id : string) (block1 block2 : Block).

(** The struct.  [store] stands for [store.WriteObject] reading the pipe the
    codec of [writerFactory] writes into: given what was written before, the
    file name and the blocks streamed, it answers with the cause of the
    error the call returns, if any. *)
Record mergedBlocksWriter : Type := mkWriter {
  store           : list event -> string -> list Block -> option string;
  lowBlockNum     : N;
  stopBlockNum    : N;
  blocks          : list Block;
  checkBundleSize : bool;
  tweakBlock      : option (Block -> string + Block)
}.

Definition withLowBlockNum (n : N) (w : mergedBlocksWriter) : mergedBlocksWriter :=
  mkWriter (store w) n (stopBlockNum w) (blocks w) (checkBundleSize w) (tweakBlock w).

Definition withBlocks (bs : list Block) (w : mergedBlocksWriter) : mergedBlocksWriter :=
  mkWriter (store w) (lowBlockNum w) (stopBlockNum w) bs (checkBundleSize w) (tweakBlock w).

(** The writer together with everything its collaborators have seen. *)
Record world : Type := mkWorld {
  self  : mergedBlocksWriter;
  trace : list event
}.

(** ** A state-and-error monad for the methods

    A Go method mutates the receiver and may return early with an error; the
    mutations done before the return stay. *)
Inductive result (A : Type) : Type :=
| Ok (a : A)
| Err (e : error).
Arguments Ok {A} a.
Arguments Err {A} e.

Definition M (A : Type) : Type := world -> result A * world.

Definition ret {A} (a : A) : M A := fun s => (Ok a, s).

Definition bind {A B} (m : M A) (k : A -> M B) : M B :=
  fun s => match m s with
           | (Ok a, s') => k a s'
           | (Err e, s') => (Err e, s')
           end.

Definition fail {A} (e : error) : M A := fun s => (Err e, s).

Definition this : M mergedBlocksWriter := fun s => (Ok (self s), s).

Definition history : M (list event) := fun s => (Ok (trace s), s).

Definition update (f : mergedBlocksWriter -> mergedBlocksWriter) : M unit :=
  fun s => (Ok tt, mkWorld (f (self s)) (trace s)).

Definition emit (evs : list event) : M unit :=
  fun s => (Ok tt, mkWorld (self s) (trace s ++ evs)).

Notation "x <- m ;; k" := (bind m (fun x => k))
  (at level 100, m at next level, right associativity).
Notation "m ;; k" := (bind m (fun _ => k))
  (at level 100, right associativity).

(** What the caller of a method gets: Go's [error] and the new world. *)
Definition call (m : M unit) (s : world) : option error * world :=
  match m s with
  | (Ok _, s') => (None, s')
  | (Err e, s') => (Some e, s')
  end.

(** ** Boundary arithmetic and file names *)

Definition u64 (x : N) : N := x mod 2 ^ 64.

(** [func lowBoundary(i uint64) uint64] *)
Definition lowBoundary (i : N) : N := i - (i mod 100).

Definition digitChar (d : N) : ascii := ascii_of_N (48 + d).

(** The decimal digits of [n] in front of [acc], least significant digit
    produced first. *)
Fixpoint decimalDigits (fuel : nat) (n : N) (acc : string) : string :=
  match fuel with
  | O => acc
  | S fuel' =>
      let acc' := String (digitChar (n mod 10)) acc in
      if n / 10 =? 0 then acc' else decimalDigits fuel' (n / 10) acc'
  end.

(** How many digits [decimalDigits] produces. *)
Fixpoint digitCount (fuel : nat) (n : N) : nat :=
  match fuel with
  | O => O
  | S fuel' => if n / 10 =? 0 then 1%nat else S (digitCount fuel' (n / 10))
  end.

(** [%d] of a [uint64]: at most 20 digits. *)
Definition formatUint (n : N) : string := decimalDigits 20 n EmptyString.

(** [k] zeros in front of [s]. *)
Fixpoint padZeros (k : nat) (s : string) : string :=
  match k with
  | O => s
  | S k' => String "0"%char (padZeros k' s)
  end.

(** [func filename(num uint64) string], that is [fmt.Sprintf("%010d", num)]:
    zeros on the left up to a width of 10, nothing cut off beyond it. *)
Definition filename (num : N) : string :=
  let s := formatUint num in
  padZeros (10 - String.length s) s.

(** Reading a decimal numeral back, used to state what [filename] denotes. *)
Definition digitValue (c : ascii) : N := N_of_ascii c - 48.

Fixpoint decimalValue (acc : N) (s : string) : N :=
  match s with
  | EmptyString => acc
  | String c s' => decimalValue (10 * acc + digitValue c) s'
  end.

(** ** The duplicate scans *)

Section Scan.
Context {K : Type} `{Countable K}.
Variable key : Block -> K.
Variable report : K -> Block -> Block -> event.

(** The loop shared by both scans: [blockMap] keeps the first block seen
    under each key, every later block with a key already present is
    logged together with that first block. *)
Fixpoint scanBlocks (bs : list Block) (blockMap : gmap K Block) : list event :=
  match bs with
  | [] => []
  | b :: rest =>
      match blockMap !! key b with
      | Some block => report (key b) b block :: scanBlocks rest blockMap
      | None => scanBlocks rest (<[key b := b]> blockMap)
      end
  end.

(** The map the loop holds after it has gone through [bs]. *)
Fixpoint firstSeen (bs : list Block) (blockMap : gmap K Block) : gmap K Block :=
  match bs with
  | [] => blockMap
  | b :: rest =>
      match blockMap !! key b with
      | Some _ => firstSeen rest blockMap
      | None => firstSeen rest (<[key b := b]> blockMap)
      end
  end.
End Scan.

(** [func (w *mergedBlocksWriter) checkDuplicateNumbers()] *)
Definition checkDuplicateNumbers : M unit :=
  w <- this ;;
  emit (scanBlocks Number LogDuplicateNumber (blocks w) ∅).

(** [func (w *mergedBlocksWriter) checkDuplicateIds()] *)
Definition checkDuplicateIds : M unit :=
  w <- this ;;
  emit (scanBlocks Id LogDuplicateId (blocks w) ∅).

(** ** The flush procedure *)

(** [func (w *mergedBlocksWriter) writeBundle() error].  The goroutine
    streams [w.blocks] in order into the pipe that [store.WriteObject]
    reads; the call is recorded with the blocks streamed. *)
Definition writeBundle : M unit :=
  w <- this ;;
  let file := filename (lowBlockNum w) in
  if (length (blocks w) =? 0)%nat then fail ErrNoBlocksToWrite
  else
    seen <- history ;;
    let err := ErrDownstream <$> store w seen file (blocks w) in
    emit [WriteObject file (blocks w)] ;;
    match err with
    | Some e => emit [LogWritingToStore e]
    | None => ret tt
    end ;;
    update (withLowBlockNum (u64 (lowBlockNum w + 100))) ;;
    update (withBlocks []) ;;
    match err with
    | Some e => fail e
    | None => ret tt
    end.

(** ** The per-block state machine *)

Section ProcessBlock.
(** [bstream.GetProtocolFirstStreamableBlock], a package variable of the
    [bstream] library set once per chain. *)
Variable GetProtocolFirstStreamableBlock : N.

(** Lines 26-32: the optional transform hook. *)
Definition tweakStep (blk : Block) : M Block :=
  w <- this ;;
  match tweakBlock w with
  | Some f =>
      match f blk with
      | inl cause => fail (ErrTweakingBlock cause)
      | inr b => ret b
      end
  | None => ret blk
  end.

(** Lines 34-40: the first boundary. *)
Definition boundaryStep (blk : Block) : M unit :=
  w <- this ;;
  if (lowBlockNum w =? 0) && (99 <? Number blk) then
    if negb (Number blk mod 100 =? 0)
       && negb (Number blk =? GetProtocolFirstStreamableBlock)
    then fail (ErrUnexpectedBlock blk GetProtocolFirstStreamableBlock)
    else update (withLowBlockNum (lowBoundary (Number blk)))
  else ret tt.

(** Lines 42-47: a block of a later bundle flushes the current one. *)
Definition overflowStep (blk : Block) : M unit :=
  w <- this ;;
  if u64 (lowBlockNum w + 99) <? Number blk then writeBundle else ret tt.

(** Lines 49-51: the stop limit. *)
Definition stopStep (blk : Block) : M unit :=
  w <- this ;;
  if (0 <? stopBlockNum w) && (stopBlockNum w <=? Number blk)
  then fail io_EOF
  else ret tt.

(** Line 53: [w.blocks = append(w.blocks, blk)]. *)
Definition appendStep (blk : Block) : M unit :=
  update (fun w => withBlocks (blocks w ++ [blk]) w).

(** Lines 55-66: the last block of the bundle. *)
Definition completionStep (blk : Block) : M unit :=
  w <- this ;;
  if Number blk =? u64 (lowBlockNum w + 99) then
    if checkBundleSize w
       && negb (length (blocks w) =? 100)%nat
       && (100 <=? Number blk)
    then
      checkDuplicateNumbers ;;
      checkDuplicateIds ;;
      fail (ErrBundleSize (length (blocks w)) (lowBlockNum w))
    else writeBundle
  else ret tt.

(** [func (w *mergedBlocksWriter) ProcessBlock(blk *bstream.Block, obj interface{}) error] *)
Definition ProcessBlock (blk : Block) : M unit :=
  blk <- tweakStep blk ;;
  boundaryStep blk ;;
  overflowStep blk ;;
  stopStep blk ;;
  appendStep blk ;;
  completionStep blk.

(** The steps of [ProcessBlock] up to the overflow flush, and up to the
    stop check; they hand on the block the hook returned. *)
Definition beforeStop (blk : Block) : M Block :=
  blk <- tweakStep blk ;;
  boundaryStep blk ;;
  overflowStep blk ;;
  ret blk.

Definition beforeAppend (blk : Block) : M Block :=
  blk <- tweakStep blk ;;
  boundaryStep blk ;;
  overflowStep blk ;;
  stopStep blk ;;
  ret blk.

(** The steps of [ProcessBlock] once the boundary is settled. *)
Definition afterBoundary (blk : Block) : M unit :=
  overflowStep blk ;;
  stopStep blk ;;
  appendStep blk ;;
  completionStep blk.

(** The caller's loop: every block of [bs] is handed to [ProcessBlock] in
    order; the error of each call is kept. *)
Fixpoint feed (bs : list Block) (s : world) : list (option error) * world :=
  match bs with
  | [] => ([], s)
  | blk :: rest =>
      let (r, s1) := call (ProcessBlock blk) s in
      let (rs, s2) := feed rest s1 in
      (r :: rs, s2)
  end.
End ProcessBlock.

(** A writer as constructed: no boundary yet, nothing buffered. *)
Definition newWriter (st : list event -> string -> list Block -> option string)
    (stop : N) (check : bool) (tweak : option (Block -> string + Block))
  : mergedBlocksWriter :=
  mkWriter st 0 stop [] check tweak.

Definition start (w : mergedBlocksWriter) : world := mkWorld w [].

(** The calls of [store.WriteObject] in a trace. *)
Fixpoint writes (tr : list event) : list (string * list Block) :=
  match tr with
  | [] => []
  | WriteObject file bundle :: tr' => (file, bundle) :: writes tr'
  | _ :: tr' => writes tr'
  end.

(** The world once [blk] is appended to the buffer. *)
Definition appended (blk : Block) (s : world) : world :=
  mkWorld (withBlocks (blocks (self s) ++ [blk]) (self s)) (trace s).

(** The world a flush of a non-empty buffer leaves behind. *)
Definition flushed (s : world) : world :=
  let w := self s in
  let file := filename (lowBlockNum w) in
  mkWorld
    (withBlocks [] (withLowBlockNum (u64 (lowBlockNum w + 100)) w))
    (trace s ++ WriteObject file (blocks w)
       :: match store w (trace s) file (blocks w) with
          | Some cause => [LogWritingToStore (ErrDownstream cause)]
          | None => []
          end).

(** [bs] carries the consecutive numbers [n], [n+1], ... *)
Fixpoint numberedFrom (n : N) (bs : list Block) : Prop :=
  match bs with
  | [] => True
  | b :: rest => Number b = n /\ numberedFrom (n + 1) rest
  end.

(** ** Stores and blocks for the examples *)

Definition storeAccepts : list event -> string -> list Block -> option string :=
  fun _ _ _ => None.

Definition storeRefuses : list event -> string -> list Block -> option string :=
  fun _ _ _ => Some "disk full"%string.

Definition blockAt (n : N) : Block := mkBlock n (formatUint n) EmptyString.

Definition blocksFrom (n : N) (count : nat) : list Block :=
  map (fun i => blockAt (n + N.of_nat i)) (seq 0 count).


(** ** The buffer invariant *)

Definition inBundle (low : N) (b : Block) : Prop :=
  low <= Number b <= low + 99.

Definition bufferInRange (w : mergedBlocksWriter) : Prop :=
  Forall (inBundle (lowBlockNum w)) (blocks w).

(** The boundary in force for [b] once the boundary step has passed. *)
Definition settledBoundary (w : mergedBlocksWriter) (b : Block) : N :=
  if (lowBlockNum w =? 0) && (99 <? Number b)
  then lowBoundary (Number b)
  else lowBlockNum w.

(** A block that arrives in order: it sets the first boundary only on an
    empty buffer, and it lies in the bundle of the settled boundary or in
    the one after it, 64-bit arithmetic not wrapping. *)
Definition inOrder (w : mergedBlocksWriter) (b : Block) : Prop :=
  let L := settledBoundary w b in
  (lowBlockNum w = 0 -> 99 < Number b -> blocks w = [])
  /\ L <= Number b <= L + 199
  /\ Number b < 2 ^ 64
  /\ L + 99 < 2 ^ 64.

(** The worlds a new writer gets to when every block arrives in order. *)
Inductive orderly (fsb : N) : world -> Prop :=
| orderly_start (w : mergedBlocksWriter) :
    lowBlockNum w = 0 -> blocks w = [] -> orderly fsb (start w)
| orderly_step (s : world) (blk : Block) :
    orderly fsb s ->
    (forall b, tweakStep blk s = (Ok b, s) -> inOrder (self s) b) ->
    orderly fsb (snd (call (ProcessBlock fsb blk) s)).

(** The errors that come after the boundary step: every one but the
    boundary violation and the hook's. *)
Definition laterError (e : error) : Prop :=
  match e with
  | ErrUnexpectedBlock _ _ | ErrTweakingBlock _ => False
  | _ => True
  end.

(** ** Decimal numerals *)

Definition isDigit (c : ascii) : Prop := 48 <= N_of_ascii c <= 57.

Fixpoint allDigits (s : string) : Prop :=
  match s with
  | EmptyString => True
  | String c s' => isDigit c /\ allDigits s'
  end.

(** ** What a duplicate scan is to report, said with lists *)

Section Collisions.
Context {K : Type} `{EqDecision K}.
Variable key : Block -> K.
Variable report : K -> Block -> Block -> event.

(** The first block of [bs] with key [k]. *)
Fixpoint firstWithKey (k : K) (bs : list Block) : option Block :=
  match bs with
  | [] => None
  | b :: rest => if decide (key b = k) then Some b else firstWithKey k rest
  end.

(** One report for every block of [bs] whose key an earlier block has,
    naming the first such block; [earlier] are the blocks before [bs]. *)
Fixpoint collisions (earlier bs : list Block) : list event :=
  match bs with
  | [] => []
  | b :: rest =>
      match firstWithKey (key b) earlier with
      | Some first => [report (key b) b first]
      | None => []
      end ++ collisions (earlier ++ [b]) rest
  end.
End Collisions.

(** ** Everything handed to the store *)

(** The blocks of all bundles the store was called with, in order. *)
Definition written (tr : list event) : list Block :=
  concat (map snd (writes tr)).

(** The log lines of the two scans, as the size check produces them. *)
Definition scanLog (w : mergedBlocksWriter) : list event :=
  scanBlocks Number LogDuplicateNumber (blocks w) ∅
  ++ scanBlocks Id LogDuplicateId (blocks w) ∅.

(** What the hook hands on for [blk]: [blk] itself without a hook. *)
Definition handedOn (w : mergedBlocksWriter) (blk : Block) : string + Block :=
  match tweakBlock w with
  | Some f => f blk
  | None => inr blk
  end.

(** [w'] has the configuration of [w]: store, stop limit, size check and
    hook. *)
Definition sameConfig (w w' : mergedBlocksWriter) : Prop :=
  store w' = store w
  /\ stopBlockNum w' = stopBlockNum w
  /\ checkBundleSize w' = checkBundleSize w
  /\ tweakBlock w' = tweakBlock w.

(** Everything the writer holds or has handed to the store, in order. *)
Definition accepted (s : world) : list Block :=
  written (trace s) ++ blocks (self s).

(** A call of the store under the name of a multiple of 100. *)
Definition alignedWrite (p : string * list Block) : Prop :=
  exists L, L mod 100 = 0 /\ fst p = filename L.

(** * Properties *)

(** ** File names *)

Example filename_200 : filename 200 = "0000000200"%string.
Proof. reflexivity. Qed.

Lemma digitValue_digitChar (d : N) : d < 10 -> digitValue (digitChar d) = d.
Proof.
  intros Hd. unfold digitValue, digitChar.
  rewrite N_ascii_embedding by lia. lia.
Qed.

Lemma decimalDigits_length fuel : forall n acc,
  String.length (decimalDigits fuel n acc) = (digitCount fuel n + String.length acc)%nat.
Proof.
  induction fuel as [|fuel IH]; intros n acc; simpl; [reflexivity|].
  destruct (n / 10 =? 0); simpl; [reflexivity|].
  rewrite IH. simpl. lia.
Qed.

Lemma digitCount_bound fuel : forall n k,
  n < 10 ^ N.of_nat (S k) -> (digitCount fuel n <= S k)%nat.
Proof.
  induction fuel as [|fuel IH]; intros n k Hn; simpl; [lia|].
  destruct (N.eqb_spec (n / 10) 0) as [Hq|Hq]; [lia|].
  destruct k as [|k].
  - change (10 ^ N.of_nat 1) with 10 in Hn. lia.
  - apply le_n_S, IH.
    rewrite Nat2N.inj_succ, N.pow_succ_r' in Hn. lia.
Qed.

Lemma decimalDigits_value fuel : forall n acc v,
  n < 10 ^ N.of_nat fuel ->
  decimalValue v (decimalDigits fuel n acc)
  = decimalValue (v * 10 ^ N.of_nat (digitCount fuel n) + n) acc.
Proof.
  induction fuel as [|fuel IH]; intros n acc v Hn.
  - simpl in *. replace n with 0 by lia. f_equal. lia.
  - cbn [decimalDigits digitCount].
    assert (Hd : digitValue (digitChar (n mod 10)) = n mod 10)
      by (apply digitValue_digitChar; lia).
    destruct (N.eqb_spec (n / 10) 0) as [Hq|Hq].
    + cbn [decimalValue]. rewrite Hd. f_equal.
      change (10 ^ N.of_nat 1) with 10. lia.
    + rewrite Nat2N.inj_succ, N.pow_succ_r' in Hn.
      rewrite IH by lia. cbn [decimalValue]. rewrite Hd. f_equal.
      rewrite Nat2N.inj_succ, N.pow_succ_r'.
      generalize (10 ^ N.of_nat (digitCount fuel (n / 10))). intros p. nia.
Qed.

Lemma padZeros_length k s :
  String.length (padZeros k s) = (k + String.length s)%nat.
Proof. induction k; simpl; congruence. Qed.

Lemma decimalValue_padZeros k s : decimalValue 0 (padZeros k s) = decimalValue 0 s.
Proof. induction k as [|k IH]; [reflexivity|]. exact IH. Qed.

(** Below [10^10] the name has exactly ten characters. *)
Lemma filename_length (num : N) :
  num < 10 ^ 10 -> String.length (filename num) = 10%nat.
Proof.
  intros Hn. unfold filename, formatUint.
  rewrite padZeros_length, decimalDigits_length.
  change (String.length EmptyString) with 0%nat.
  pose proof (digitCount_bound 20 num 9 Hn). lia.
Qed.

(** The name read as a decimal numeral is the number. *)
Lemma filename_value (num : N) :
  num < 2 ^ 64 -> decimalValue 0 (filename num) = num.
Proof.
  intros Hn. unfold filename, formatUint.
  rewrite decimalValue_padZeros, decimalDigits_value; [reflexivity|].
  change (N.of_nat 20) with 20. lia.
Qed.

(** From [10^10] on the name is longer than ten characters. *)
Example filename_eleven : filename (10 ^ 10) = "10000000000"%string.
Proof. reflexivity. Qed.

(** ** The duplicate scans *)

Section ScanFacts.
Context {K : Type} `{Countable K}.
Variable key : Block -> K.
Variable report : K -> Block -> Block -> event.

Lemma scanBlocks_app (l1 l2 : list Block) : forall m : gmap K Block,
  scanBlocks key report (l1 ++ l2) m
  = scanBlocks key report l1 m ++ scanBlocks key report l2 (firstSeen key l1 m).
Proof.
  induction l1 as [|b l1 IH]; intros m; simpl; [reflexivity|].
  destruct (m !! key b); simpl; rewrite IH; reflexivity.
Qed.

(** An entry of the map is never overwritten. *)
Lemma firstSeen_keeps (l : list Block) : forall (m : gmap K Block) k v,
  m !! k = Some v -> firstSeen key l m !! k = Some v.
Proof.
  induction l as [|b l IH]; intros m k v Hk; simpl; [exact Hk|].
  destruct (m !! key b) eqn:Hb; apply IH; [exact Hk|].
  rewrite lookup_insert_ne; [exact Hk|]. congruence.
Qed.

(** Keys that do not occur in [l] are not touched. *)
Lemma firstSeen_other (l : list Block) : forall (m : gmap K Block) k,
  k ∉ map key l -> firstSeen key l m !! k = m !! k.
Proof.
  induction l as [|b l IH]; intros m k Hk; simpl; [reflexivity|].
  simpl in Hk. apply not_elem_of_cons in Hk as [Hne Hk].
  destruct (m !! key b) eqn:Hb; rewrite IH by exact Hk; [reflexivity|].
  apply lookup_insert_ne. congruence.
Qed.

(** Blocks with pairwise distinct keys, none of them in the map yet, are
    scanned without a report. *)
Lemma scanBlocks_fresh (l : list Block) : forall m : gmap K Block,
  NoDup (map key l) ->
  (forall k, k ∈ map key l -> m !! k = None) ->
  scanBlocks key report l m = [].
Proof.
  induction l as [|b l IH]; intros m Hnd Hm; simpl; [reflexivity|].
  simpl in Hnd. apply NoDup_cons in Hnd as [Hb Hnd].
  rewrite (Hm (key b)) by (simpl; apply list_elem_of_here).
  apply IH; [exact Hnd|]. intros k Hk.
  rewrite lookup_insert_ne by (intros Heq; subst k; contradiction).
  apply Hm. simpl. apply list_elem_of_further, Hk.
Qed.

(** Two blocks with one key among blocks whose keys are otherwise
    pairwise distinct: one report, of the later block and the earlier. *)
Lemma scanBlocks_one_pair (l1 l2 l3 : list Block) (x y : Block) :
  key x = key y ->
  NoDup (map key (l1 ++ x :: l2 ++ l3)) ->
  scanBlocks key report (l1 ++ x :: l2 ++ y :: l3) ∅ = [report (key y) y x].
Proof.
  intros Hxy Hnd.
  rewrite map_app in Hnd. simpl in Hnd. rewrite map_app in Hnd.
  apply NoDup_app in Hnd as (Hnd1 & Hd1 & Hnd).
  apply NoDup_cons in Hnd as [Hx Hnd].
  apply NoDup_app in Hnd as (Hnd2 & Hd2 & Hnd3).
  rewrite scanBlocks_app.
  rewrite scanBlocks_fresh; [|exact Hnd1|intros; apply lookup_empty].
  simpl.
  assert (Hx1 : firstSeen key l1 (∅ : gmap K Block) !! key x = None).
  { rewrite firstSeen_other; [apply lookup_empty|].
    intros Hin. apply (Hd1 _ Hin). apply list_elem_of_here. }
  rewrite Hx1.
  set (m2 := <[key x := x]> (firstSeen key l1 ∅)).
  assert (Hm2 : forall k, k ∉ map key l1 -> k ≠ key x -> m2 !! k = None).
  { intros k Hk1 Hkx. unfold m2. rewrite lookup_insert_ne by congruence.
    rewrite firstSeen_other by exact Hk1. apply lookup_empty. }
  rewrite scanBlocks_app.
  rewrite scanBlocks_fresh; [|exact Hnd2|].
  2:{ intros k Hk. apply Hm2.
      - intros Hin. apply (Hd1 _ Hin).
        apply list_elem_of_further, elem_of_app. left. exact Hk.
      - intros ->. apply Hx, elem_of_app. left. exact Hk. }
  simpl. rewrite <- Hxy.
  rewrite (firstSeen_keeps l2 m2 (key x) x)
    by (unfold m2; apply lookup_insert_eq).
  rewrite scanBlocks_fresh; [reflexivity|exact Hnd3|].
  intros k Hk. rewrite firstSeen_other by (intros Hin; exact (Hd2 _ Hin Hk)).
  apply Hm2.
  - intros Hin. apply (Hd1 _ Hin).
    apply list_elem_of_further, elem_of_app. right. exact Hk.
  - intros ->. apply Hx, elem_of_app. right. exact Hk.
Qed.
End ScanFacts.

(** ** Running the methods *)

Lemma world_eta (s : world) : mkWorld (self s) (trace s) = s.
Proof. destruct s; reflexivity. Qed.

Lemma writer_eta (w : mergedBlocksWriter) :
  mkWriter (store w) (lowBlockNum w) (stopBlockNum w) (blocks w)
           (checkBundleSize w) (tweakBlock w) = w.
Proof. destruct w; reflexivity. Qed.

Lemma scan_numbers_run (s : world) :
  checkDuplicateNumbers s
  = (Ok tt, mkWorld (self s)
              (trace s ++ scanBlocks Number LogDuplicateNumber (blocks (self s)) ∅)).
Proof. reflexivity. Qed.

Lemma scan_ids_run (s : world) :
  checkDuplicateIds s
  = (Ok tt, mkWorld (self s)
              (trace s ++ scanBlocks Id LogDuplicateId (blocks (self s)) ∅)).
Proof. reflexivity. Qed.

(** C8.  A buffer in which two blocks share a number, the numbers being
    otherwise pairwise distinct, makes the duplicate-number scan log one
    collision, naming the later and the earlier block; the duplicate-id
    scan does the same for a shared id.  Whatever the buffer holds, both
    scans return normally and change nothing but the log. *)
Theorem scans_report_one_collision (s : world) :
  (forall l1 x l2 y l3,
      blocks (self s) = l1 ++ x :: l2 ++ y :: l3 ->
      Number x = Number y ->
      NoDup (map Number (l1 ++ x :: l2 ++ l3)) ->
      call checkDuplicateNumbers s
      = (None, mkWorld (self s)
                 (trace s ++ [LogDuplicateNumber (Number y) y x])))
  /\ (forall l1 x l2 y l3,
      blocks (self s) = l1 ++ x :: l2 ++ y :: l3 ->
      Id x = Id y ->
      NoDup (map Id (l1 ++ x :: l2 ++ l3)) ->
      call checkDuplicateIds s
      = (None, mkWorld (self s) (trace s ++ [LogDuplicateId (Id y) y x])))
  /\ (exists logged,
      call checkDuplicateNumbers s = (None, mkWorld (self s) (trace s ++ logged)))
  /\ (exists logged,
      call checkDuplicateIds s = (None, mkWorld (self s) (trace s ++ logged))).
Proof.
  unfold call. rewrite scan_numbers_run, scan_ids_run.
  repeat split.
  - intros l1 x l2 y l3 Hb Hxy Hnd. rewrite Hb.
    rewrite (scanBlocks_one_pair Number LogDuplicateNumber) by assumption.
    reflexivity.
  - intros l1 x l2 y l3 Hb Hxy Hnd. rewrite Hb.
    rewrite (scanBlocks_one_pair Id LogDuplicateId) by assumption.
    reflexivity.
  - eexists; reflexivity.
  - eexists; reflexivity.
Qed.

(** Two blocks numbered 7 with different ids, then two blocks with one id
    and different numbers. *)
Lemma scans_report_one_collision_witness :
  let a := mkBlock 7 "a" EmptyString in
  let b := mkBlock 7 "b" EmptyString in
  let c := mkBlock 8 "a" EmptyString in
  call checkDuplicateNumbers (start (mkWriter storeAccepts 0 0 [a; b] true None))
  = (None, mkWorld (mkWriter storeAccepts 0 0 [a; b] true None)
             [LogDuplicateNumber 7 b a])
  /\ call checkDuplicateIds (start (mkWriter storeAccepts 0 0 [a; c] true None))
  = (None, mkWorld (mkWriter storeAccepts 0 0 [a; c] true None)
             [LogDuplicateId "a" c a]).
Proof.
  intros a b c. split.
  - apply (proj1 (scans_report_one_collision
                    (start (mkWriter storeAccepts 0 0 [a; b] true None)))
             [] a [] b []).
    + reflexivity.
    + reflexivity.
    + vm_compute. repeat constructor; set_solver.
  - apply (proj1 (proj2 (scans_report_one_collision
                    (start (mkWriter storeAccepts 0 0 [a; c] true None))))
             [] a [] c []).
    + reflexivity.
    + reflexivity.
    + vm_compute. repeat constructor; set_solver.
Defined.

(** ** The flush procedure *)

Lemma writeBundle_empty (s : world) :
  blocks (self s) = [] -> writeBundle s = (Err ErrNoBlocksToWrite, s).
Proof.
  intros Hb. unfold writeBundle, bind, this. simpl. rewrite Hb. reflexivity.
Qed.

Lemma writeBundle_flush (s : world) :
  blocks (self s) ≠ [] ->
  writeBundle s
  = (match store (self s) (trace s) (filename (lowBlockNum (self s)))
             (blocks (self s)) with
     | Some cause => Err (ErrDownstream cause)
     | None => Ok tt
     end, flushed s).
Proof.
  intros Hb. unfold writeBundle, flushed, bind, this, history, emit, update, fail, ret.
  simpl. destruct (blocks (self s)) as [|b bs] eqn:Hbs; [contradiction|]. simpl.
  destruct (store (self s) (trace s) _ _); simpl.
  - rewrite <- app_assoc. reflexivity.
  - reflexivity.
Qed.

(** C3, amended.  A flush of a non-empty buffer, whether the store takes
    the bundle or not, leaves the buffer empty and the low boundary
    advanced by 100 in 64-bit arithmetic, which is exactly 100 further as
    long as that is below 2^64; it returns what the store answered. *)
Theorem writeBundle_bookkeeping (s : world) :
  blocks (self s) ≠ [] ->
  let r := call writeBundle s in
  blocks (self (snd r)) = []
  /\ lowBlockNum (self (snd r)) = u64 (lowBlockNum (self s) + 100)
  /\ (lowBlockNum (self s) + 100 < 2 ^ 64 ->
      lowBlockNum (self (snd r)) = lowBlockNum (self s) + 100)
  /\ fst r = ErrDownstream <$> store (self s) (trace s)
                                 (filename (lowBlockNum (self s))) (blocks (self s)).
Proof.
  intros Hb. unfold call. rewrite writeBundle_flush by exact Hb.
  destruct (store (self s) (trace s) _ _); simpl; unfold u64;
    repeat split; intros; lia.
Qed.

Lemma writeBundle_bookkeeping_witness :
  let s := start (mkWriter storeRefuses 200 0 [blockAt 200] false None) in
  let r := call writeBundle s in
  blocks (self (snd r)) = []
  /\ lowBlockNum (self (snd r)) = u64 (200 + 100)
  /\ (200 + 100 < 2 ^ 64 -> lowBlockNum (self (snd r)) = 200 + 100)
  /\ fst r = Some (ErrDownstream "disk full").
Proof.
  apply (writeBundle_bookkeeping
           (start (mkWriter storeRefuses 200 0 [blockAt 200] false None))).
  simpl. discriminate.
Defined.

(** C3 as stated fails on an empty buffer: the flush returns before any
    bookkeeping and the low boundary stays at 200. *)
Lemma writeBundle_empty_keeps_boundary :
  let s := start (mkWriter storeAccepts 200 0 [] false None) in
  call writeBundle s = (Some ErrNoBlocksToWrite, s)
  /\ lowBlockNum (self (snd (call writeBundle s))) ≠ lowBlockNum (self s) + 100.
Proof. split; [reflexivity|]. vm_compute. discriminate. Qed.

(** C9.  On an empty buffer the flush returns the no-blocks failure and
    leaves the world as it was: no call of the store, no log line, the low
    boundary and the buffer untouched.  [ProcessBlock] gets there when a
    block beyond the current bundle arrives while nothing is buffered. *)
Theorem writeBundle_nothing_to_write (s : world) :
  blocks (self s) = [] ->
  call writeBundle s = (Some ErrNoBlocksToWrite, s)
  /\ forall fsb blk,
      tweakBlock (self s) = None ->
      lowBlockNum (self s) ≠ 0 ->
      u64 (lowBlockNum (self s) + 99) < Number blk ->
      call (ProcessBlock fsb blk) s = (Some ErrNoBlocksToWrite, s).
Proof.
  intros Hb. split.
  - unfold call. rewrite writeBundle_empty by exact Hb. reflexivity.
  - intros fsb blk Ht Hlow Hn.
    unfold call, ProcessBlock, tweakStep, boundaryStep, overflowStep, bind, this, ret.
    simpl. rewrite Ht. simpl.
    destruct (N.eqb_spec (lowBlockNum (self s)) 0) as [|_]; [contradiction|]. simpl.
    destruct (N.ltb_spec (u64 (lowBlockNum (self s) + 99)) (Number blk)); [|lia].
    rewrite writeBundle_empty by exact Hb. reflexivity.
Qed.

(** After blocks 100 and 199 have been bundled, block 300 arrives. *)
Lemma writeBundle_nothing_to_write_witness :
  let s := snd (feed 0 [blockAt 100; blockAt 199]
                  (start (newWriter storeAccepts 0 false None))) in
  blocks (self s) = []
  /\ call writeBundle s = (Some ErrNoBlocksToWrite, s)
  /\ call (ProcessBlock 0 (blockAt 300)) s = (Some ErrNoBlocksToWrite, s).
Proof.
  intros s.
  assert (Hb : blocks (self s) = []) by reflexivity.
  split; [exact Hb|]. split.
  - apply (proj1 (writeBundle_nothing_to_write s Hb)).
  - apply (proj2 (writeBundle_nothing_to_write s Hb)).
    + reflexivity.
    + vm_compute. discriminate.
    + vm_compute. reflexivity.
Defined.

(** ** The steps of [ProcessBlock], one at a time *)

Section Steps.
Variable fsb : N.
Variable blk : Block.
Variable s : world.

Lemma tweakStep_run :
  tweakStep blk s
  = (match tweakBlock (self s) with
     | Some f => match f blk with
                 | inl cause => Err (ErrTweakingBlock cause)
                 | inr b => Ok b
                 end
     | None => Ok blk
     end, s).
Proof.
  unfold tweakStep, bind, this. simpl.
  destruct (tweakBlock (self s)) as [f|]; [|reflexivity].
  destruct (f blk); reflexivity.
Qed.

Lemma boundaryStep_run :
  boundaryStep fsb blk s
  = if (lowBlockNum (self s) =? 0) && (99 <? Number blk) then
      if negb (Number blk mod 100 =? 0) && negb (Number blk =? fsb)
      then (Err (ErrUnexpectedBlock blk fsb), s)
      else (Ok tt, mkWorld (withLowBlockNum (lowBoundary (Number blk)) (self s))
                   (trace s))
    else (Ok tt, s).
Proof.
  unfold boundaryStep, bind, this. simpl.
  destruct ((lowBlockNum (self s) =? 0) && (99 <? Number blk)); [|reflexivity].
  destruct (negb (Number blk mod 100 =? 0) && negb (Number blk =? fsb));
    reflexivity.
Qed.

Lemma overflowStep_run :
  overflowStep blk s
  = if u64 (lowBlockNum (self s) + 99) <? Number blk then writeBundle s else (Ok tt, s).
Proof.
  unfold overflowStep, bind, this. simpl.
  destruct (u64 (lowBlockNum (self s) + 99) <? Number blk); reflexivity.
Qed.

Lemma stopStep_run :
  stopStep blk s
  = if (0 <? stopBlockNum (self s)) && (stopBlockNum (self s) <=? Number blk)
    then (Err io_EOF, s)
    else (Ok tt, s).
Proof.
  unfold stopStep, bind, this. simpl.
  destruct ((0 <? stopBlockNum (self s)) && (stopBlockNum (self s) <=? Number blk));
    reflexivity.
Qed.

Lemma appendStep_run : appendStep blk s = (Ok tt, appended blk s).
Proof. reflexivity. Qed.

Lemma completionStep_run :
  completionStep blk s
  = if Number blk =? u64 (lowBlockNum (self s) + 99) then
      if checkBundleSize (self s)
         && negb (length (blocks (self s)) =? 100)%nat
         && (100 <=? Number blk)
      then (Err (ErrBundleSize (length (blocks (self s))) (lowBlockNum (self s))),
            mkWorld (self s)
              ((trace s ++ scanBlocks Number LogDuplicateNumber (blocks (self s)) ∅)
                 ++ scanBlocks Id LogDuplicateId (blocks (self s)) ∅))
      else writeBundle s
    else (Ok tt, s).
Proof.
  unfold completionStep, bind, this. simpl.
  destruct (Number blk =? u64 (lowBlockNum (self s) + 99)); [|reflexivity].
  destruct (checkBundleSize (self s)
            && negb (length (blocks (self s)) =? 100)%nat
            && (100 <=? Number blk)); reflexivity.
Qed.
End Steps.

(** [ProcessBlock] is the steps before the append, then the append and the
    completion check. *)
Lemma ProcessBlock_split (fsb : N) (blk : Block) (s : world) :
  ProcessBlock fsb blk s
  = match beforeAppend fsb blk s with
    | (Ok b, s1) => (appendStep b ;; completionStep b) s1
    | (Err e, s1) => (Err e, s1)
    end.
Proof.
  unfold ProcessBlock, beforeAppend, beforeStop, bind, ret.
  destruct (tweakStep blk s) as [[b|e] s0]; [|reflexivity].
  destruct (boundaryStep fsb b s0) as [[[]|e] s1]; [|reflexivity].
  destruct (overflowStep b s1) as [[[]|e] s2]; [|reflexivity].
  destruct (stopStep b s2) as [[[]|e] s3]; reflexivity.
Qed.

(** The steps before the append are the steps before the stop check, then
    the stop check. *)
Lemma beforeAppend_split (fsb : N) (blk : Block) (s : world) :
  beforeAppend fsb blk s
  = match beforeStop fsb blk s with
    | (Ok b, s1) =>
        if (0 <? stopBlockNum (self s1)) && (stopBlockNum (self s1) <=? Number b)
        then (Err io_EOF, s1)
        else (Ok b, s1)
    | (Err e, s1) => (Err e, s1)
    end.
Proof.
  unfold beforeAppend, beforeStop, bind, ret.
  destruct (tweakStep blk s) as [[b|e] s0]; [|reflexivity].
  destruct (boundaryStep fsb b s0) as [[[]|e] s1]; [|reflexivity].
  destruct (overflowStep b s1) as [[[]|e] s2]; [|reflexivity].
  rewrite stopStep_run.
  destruct ((0 <? stopBlockNum (self s2)) && (stopBlockNum (self s2) <=? Number b));
    reflexivity.
Qed.

(** The three ways a flush can end. *)
Lemma writeBundle_cases (s : world) :
  (blocks (self s) = [] /\ writeBundle s = (Err ErrNoBlocksToWrite, s))
  \/ (blocks (self s) ≠ [] /\ writeBundle s = (Ok tt, flushed s))
  \/ (blocks (self s) ≠ [] /\
      exists cause, writeBundle s = (Err (ErrDownstream cause), flushed s)).
Proof.
  destruct (blocks (self s)) as [|b bs] eqn:Hb.
  - left. split; [reflexivity|]. apply writeBundle_empty, Hb.
  - right. assert (Hne : blocks (self s) ≠ []) by (rewrite Hb; discriminate).
    rewrite <- Hb. rewrite (writeBundle_flush s Hne).
    destruct (store (self s) (trace s) _ _) as [cause|].
    + right. split; [exact Hne|]. exists cause. reflexivity.
    + left. split; [exact Hne|]. reflexivity.
Qed.

Lemma writeBundle_errors (s s' : world) (e : error) :
  writeBundle s = (Err e, s') -> laterError e.
Proof.
  destruct (writeBundle_cases s) as [[_ H]|[[_ H]|[_ [c H]]]];
    rewrite H; intros [= <- _]; exact I.
Qed.

Lemma afterBoundary_errors (b : Block) (s s' : world) (e : error) :
  afterBoundary b s = (Err e, s') -> laterError e.
Proof.
  unfold afterBoundary, bind. rewrite overflowStep_run.
  destruct (u64 (lowBlockNum (self s) + 99) <? Number b).
  - destruct (writeBundle s) as [[[]|e1] s1] eqn:Hw.
    2:{ intros [= <- _]. eapply writeBundle_errors, Hw. }
    rewrite stopStep_run.
    destruct ((0 <? stopBlockNum (self s1)) && (stopBlockNum (self s1) <=? Number b)).
    { intros [= <- _]. exact I. }
    rewrite appendStep_run, completionStep_run.
    destruct (Number b =? _); [|discriminate].
    destruct (_ && _ && _).
    + intros [= <- _]. exact I.
    + apply writeBundle_errors.
  - rewrite stopStep_run.
    destruct ((0 <? stopBlockNum (self s)) && (stopBlockNum (self s) <=? Number b)).
    { intros [= <- _]. exact I. }
    rewrite appendStep_run, completionStep_run.
    destruct (Number b =? _); [|discriminate].
    destruct (_ && _ && _).
    + intros [= <- _]. exact I.
    + apply writeBundle_errors.
Qed.

(** [ProcessBlock] on a writer without a boundary, for a block beyond 99. *)
Lemma ProcessBlock_first_boundary (fsb : N) (s : world) (blk b : Block) :
  tweakStep blk s = (Ok b, s) ->
  lowBlockNum (self s) = 0 ->
  99 < Number b ->
  ProcessBlock fsb blk s
  = if negb (Number b mod 100 =? 0) && negb (Number b =? fsb)
    then (Err (ErrUnexpectedBlock b fsb), s)
    else afterBoundary b
           (mkWorld (withLowBlockNum (Number b - Number b mod 100) (self s))
              (trace s)).
Proof.
  intros Ht Hlow Hn. unfold ProcessBlock, afterBoundary.
  unfold bind at 1. rewrite Ht.
  unfold bind at 1. rewrite boundaryStep_run, Hlow.
  destruct (N.ltb_spec 99 (Number b)); [|lia]. simpl.
  destruct (negb (Number b mod 100 =? 0) && negb (Number b =? fsb)); reflexivity.
Qed.

(** C6.  On a writer without a boundary ([lowBlockNum] is 0), for a block
    numbered above 99 (the block the hook hands on, if there is a hook):
    [ProcessBlock] fails with the boundary violation exactly when the
    number is neither a multiple of 100 nor the first streamable block, and
    then the world is untouched; otherwise the low boundary becomes
    [n - n mod 100] and the call goes on from there.  A first block 150,
    when 150 is not the first streamable block, fails and nothing is
    written. *)
Theorem first_boundary (fsb : N) :
  (forall (s : world) (blk b : Block),
      tweakStep blk s = (Ok b, s) ->
      lowBlockNum (self s) = 0 ->
      99 < Number b ->
      let violation := Number b mod 100 ≠ 0 /\ Number b ≠ fsb in
      (fst (call (ProcessBlock fsb blk) s) = Some (ErrUnexpectedBlock b fsb)
       <-> violation)
      /\ (violation ->
          call (ProcessBlock fsb blk) s = (Some (ErrUnexpectedBlock b fsb), s))
      /\ (~ violation ->
          ProcessBlock fsb blk s
          = afterBoundary b
              (mkWorld (withLowBlockNum (Number b - Number b mod 100) (self s))
                 (trace s))))
  /\ (forall st stop check (blk : Block),
      Number blk = 150 ->
      fsb ≠ 150 ->
      call (ProcessBlock fsb blk) (start (newWriter st stop check None))
      = (Some (ErrUnexpectedBlock blk fsb), start (newWriter st stop check None))).
Proof.
  assert (Hgen : forall (s : world) (blk b : Block),
      tweakStep blk s = (Ok b, s) ->
      lowBlockNum (self s) = 0 ->
      99 < Number b ->
      let violation := Number b mod 100 ≠ 0 /\ Number b ≠ fsb in
      (fst (call (ProcessBlock fsb blk) s) = Some (ErrUnexpectedBlock b fsb)
       <-> violation)
      /\ (violation ->
          call (ProcessBlock fsb blk) s = (Some (ErrUnexpectedBlock b fsb), s))
      /\ (~ violation ->
          ProcessBlock fsb blk s
          = afterBoundary b
              (mkWorld (withLowBlockNum (Number b - Number b mod 100) (self s))
                 (trace s)))).
  { intros s blk b Ht Hlow Hn violation. unfold call.
    rewrite (ProcessBlock_first_boundary fsb s blk b Ht Hlow Hn).
    destruct (N.eqb_spec (Number b mod 100) 0) as [Hm|Hm];
      destruct (N.eqb_spec (Number b) fsb) as [Hf|Hf]; simpl;
      unfold violation.
    1-3: (split; [|split; [tauto|reflexivity]]; split; [|tauto];
          destruct (afterBoundary b _) as [[[]|e] s'] eqn:Ha; simpl;
          [discriminate|];
          intros [= ->]; apply afterBoundary_errors in Ha; destruct Ha).
    split; [tauto|]. split; [reflexivity|tauto]. }
  split; [exact Hgen|].
  intros st stop check blk H150 Hfsb.
  apply (Hgen (start (newWriter st stop check None)) blk blk).
  - reflexivity.
  - reflexivity.
  - rewrite H150. lia.
  - rewrite H150. split; [lia|congruence].
Qed.

Lemma first_boundary_witness :
  let s := start (newWriter storeAccepts 0 true None) in
  call (ProcessBlock 0 (blockAt 150)) s
  = (Some (ErrUnexpectedBlock (blockAt 150) 0), s)
  /\ lowBlockNum (self (snd (call (ProcessBlock 0 (blockAt 200)) s))) = 200.
Proof.
  intros s. split.
  - apply (proj2 (first_boundary 0) storeAccepts 0 true (blockAt 150)).
    + reflexivity.
    + lia.
  - unfold call.
    rewrite (proj2 (proj2 (proj1 (first_boundary 0) s (blockAt 200) (blockAt 200)
                             eq_refl eq_refl eq_refl))).
    + reflexivity.
    + vm_compute. intros [H _]. apply H. reflexivity.
Defined.

(** ** The completion check *)



(** The test for the first bundle is the number of the block: a first
    bundle that starts at a first streamable block above 99, here 150, is
    checked like any other and found short. *)
Example first_bundle_above_99_is_checked :
  let r := feed 150 (blocksFrom 150 50) (start (newWriter storeAccepts 0 true None)) in
  nth 49 (fst r) None = Some (ErrBundleSize 50 100)
  /\ writes (trace (snd r)) = [].
Proof. vm_compute. split; reflexivity. Qed.

(** ** What happens before the stop check *)

Lemma withLowBlockNum_same (w : mergedBlocksWriter) :
  withLowBlockNum (lowBlockNum w) w = w.
Proof. destruct w; reflexivity. Qed.

(** When the steps before the stop check succeed, the hook has handed on
    [b], the boundary [L] is the old one or the one [b] has established, and
    the buffer was either left alone or flushed once, under [L], with the
    store taking the bundle. *)
Lemma beforeStop_ok (fsb : N) (s s1 : world) (blk b : Block) :
  beforeStop fsb blk s = (Ok b, s1) ->
  tweakStep blk s = (Ok b, s)
  /\ exists L,
      (L = lowBlockNum (self s)
       \/ (lowBlockNum (self s) = 0 /\ 99 < Number b /\ L = lowBoundary (Number b)))
      /\ let s0 := mkWorld (withLowBlockNum L (self s)) (trace s) in
         (s1 = s0 /\ Number b <= u64 (L + 99))
         \/ (s1 = flushed s0 /\ u64 (L + 99) < Number b
             /\ blocks (self s) ≠ []
             /\ store (self s) (trace s) (filename L) (blocks (self s)) = None).
Proof.
  unfold beforeStop. unfold bind at 1. rewrite tweakStep_run.
  set (t := match tweakBlock (self s) with
            | Some f => match f blk with
                        | inl cause => Err (ErrTweakingBlock cause)
                        | inr b => Ok b
                        end
            | None => Ok blk
            end).
  destruct t as [b0|e]; [|discriminate].
  unfold bind at 1. rewrite boundaryStep_run.
  assert (Hrest : forall L,
    (L = lowBlockNum (self s)
     \/ (lowBlockNum (self s) = 0 /\ 99 < Number b0 /\ L = lowBoundary (Number b0))) ->
    (let s0 := mkWorld (withLowBlockNum L (self s)) (trace s) in
     (overflowStep b0;; ret b0) s0 = (Ok b, s1) ->
     (Ok b0, s) = (Ok b, s) /\
     exists L,
       (L = lowBlockNum (self s)
        \/ (lowBlockNum (self s) = 0 /\ 99 < Number b /\ L = lowBoundary (Number b)))
       /\ let s0 := mkWorld (withLowBlockNum L (self s)) (trace s) in
          (s1 = s0 /\ Number b <= u64 (L + 99))
          \/ (s1 = flushed s0 /\ u64 (L + 99) < Number b
              /\ blocks (self s) ≠ []
              /\ store (self s) (trace s) (filename L) (blocks (self s)) = None))).
  { intros L HL s0. unfold bind. rewrite overflowStep_run. subst s0. simpl.
    destruct (N.ltb_spec (u64 (L + 99)) (Number b0)) as [Hov|Hov].
    - match goal with |- context [writeBundle ?x] => set (s0 := x) end.
      destruct (blocks (self s)) as [|x xs] eqn:Hb.
      + rewrite writeBundle_empty by exact Hb. discriminate.
      + rewrite writeBundle_flush by (simpl; rewrite Hb; discriminate).
        simpl. rewrite Hb.
        destruct (store (self s) (trace s) (filename L) (x :: xs)) eqn:Hst;
          [discriminate|].
        unfold ret. intros [= <- <-]. split; [reflexivity|].
        exists L. split; [exact HL|]. right.
        split; [|split; [exact Hov|split; [discriminate|exact Hst]]].
        unfold flushed, s0. simpl. rewrite Hb, Hst. reflexivity.
    - unfold ret. intros [= <- <-]. split; [reflexivity|].
      exists L. split; [exact HL|]. left. split; [reflexivity|exact Hov]. }
  destruct (N.eqb_spec (lowBlockNum (self s)) 0) as [Hlow|Hlow];
    destruct (N.ltb_spec 99 (Number b0)) as [Hn|Hn]; simpl.
  - destruct (negb (Number b0 mod 100 =? 0) && negb (Number b0 =? fsb));
      [discriminate|].
    apply (Hrest (lowBoundary (Number b0))). right. auto.
  - intros Hr. apply (Hrest (lowBlockNum (self s))); [left; reflexivity|].
    simpl. rewrite withLowBlockNum_same, world_eta. exact Hr.
  - intros Hr. apply (Hrest (lowBlockNum (self s))); [left; reflexivity|].
    simpl. rewrite withLowBlockNum_same, world_eta. exact Hr.
  - intros Hr. apply (Hrest (lowBlockNum (self s))); [left; reflexivity|].
    simpl. rewrite withLowBlockNum_same, world_eta. exact Hr.
Qed.

(** ** The stop limit *)

(** C7, amended.  When the hook, the boundary step and the overflow flush
    have not failed, a stop limit is set and the block is at or beyond it,
    [ProcessBlock] returns [io.EOF], an error value of its own, and the
    block is neither appended nor written: the buffer and the trace are
    those of before the call, or the old buffer was flushed, without the
    block, by the overflow step.  With a stop limit of 300, block 299 is
    appended and block 300 gets [io.EOF]. *)
Theorem stop_limit (fsb : N) :
  (forall (s s1 : world) (blk b : Block),
      beforeStop fsb blk s = (Ok b, s1) ->
      0 < stopBlockNum (self s) ->
      stopBlockNum (self s) <= Number b ->
      call (ProcessBlock fsb blk) s = (Some io_EOF, s1)
      /\ ((blocks (self s1) = blocks (self s) /\ trace s1 = trace s)
          \/ (blocks (self s1) = [] /\
              exists file, trace s1 = trace s ++ [WriteObject file (blocks (self s))])))
  /\ (let r := feed fsb [blockAt 200; blockAt 299; blockAt 300]
                 (start (newWriter storeAccepts 300 false None)) in
      fst r = [None; None; Some io_EOF]
      /\ writes (trace (snd r)) = [("0000000200"%string, [blockAt 200; blockAt 299])]
      /\ blocks (self (snd r)) = []).
Proof.
  split.
  - intros s s1 blk b Hpre Hstop Hn.
    destruct (beforeStop_ok fsb s s1 blk b Hpre) as (_ & L & _ & Hs1).
    assert (Hcfg : stopBlockNum (self s1) = stopBlockNum (self s))
      by (destruct Hs1 as [[-> _]|[-> _]]; reflexivity).
    split.
    + unfold call. rewrite ProcessBlock_split, beforeAppend_split, Hpre, Hcfg.
      destruct (N.ltb_spec 0 (stopBlockNum (self s))); [|lia].
      destruct (N.leb_spec (stopBlockNum (self s)) (Number b)); [|lia].
      reflexivity.
    + destruct Hs1 as [[-> _]|(-> & _ & _ & Hst)].
      * left. split; reflexivity.
      * right. split; [reflexivity|]. exists (filename L).
        unfold flushed. simpl. rewrite Hst. reflexivity.
  - vm_compute. repeat split; reflexivity.
Qed.

(** Block 300 after block 200, which has set the boundary, with a stop
    limit of 250. *)
Lemma stop_limit_witness :
  let s := snd (feed 0 [blockAt 200] (start (newWriter storeAccepts 250 false None))) in
  fst (call (ProcessBlock 0 (blockAt 300)) s) = Some io_EOF
  /\ blocks (self (snd (call (ProcessBlock 0 (blockAt 300)) s))) = [].
Proof.
  intros s.
  assert (Hpre : beforeStop 0 (blockAt 300) s = (Ok (blockAt 300), flushed s))
    by (vm_compute; reflexivity).
  assert (H0 : 0 < stopBlockNum (self s)) by (vm_compute; reflexivity).
  assert (H1 : stopBlockNum (self s) <= Number (blockAt 300))
    by (vm_compute; discriminate).
  rewrite (proj1 (proj1 (stop_limit 0) s (flushed s) (blockAt 300) (blockAt 300)
                    Hpre H0 H1)).
  split; reflexivity.
Defined.

(** C7 as stated fails when an earlier step fails: with a stop limit of 300,
    a first block 350 gets the boundary violation, not [io.EOF]. *)
Lemma stop_limit_after_boundary :
  let s := start (newWriter storeAccepts 300 false None) in
  0 < stopBlockNum (self s)
  /\ stopBlockNum (self s) <= Number (blockAt 350)
  /\ call (ProcessBlock 0 (blockAt 350)) s
     = (Some (ErrUnexpectedBlock (blockAt 350) 0), s)
  /\ fst (call (ProcessBlock 0 (blockAt 350)) s) ≠ Some io_EOF.
Proof. vm_compute. repeat split; discriminate. Qed.

(** ** Feeding runs of blocks *)

Lemma feed_app (fsb : N) (l1 l2 : list Block) : forall s,
  feed fsb (l1 ++ l2) s
  = (fst (feed fsb l1 s) ++ fst (feed fsb l2 (snd (feed fsb l1 s))),
     snd (feed fsb l2 (snd (feed fsb l1 s)))).
Proof.
  induction l1 as [|x l1 IH]; intros s; simpl.
  - destruct (feed fsb l2 s); reflexivity.
  - destruct (call (ProcessBlock fsb x) s) as [r s1]. rewrite IH.
    destruct (feed fsb l1 s1) as [rs s2]. reflexivity.
Qed.


Section QuietWriter.
(** A writer without hook and without stop limit. *)
Variable fsb : N.
Variable s : world.
Variable blk : Block.
Hypothesis no_hook : tweakBlock (self s) = None.
Hypothesis no_stop : stopBlockNum (self s) = 0.

Lemma ProcessBlock_quiet_prefix :
  lowBlockNum (self s) ≠ 0 \/ Number blk <= 99 ->
  Number blk <= lowBlockNum (self s) + 99 ->
  lowBlockNum (self s) + 99 < 2 ^ 64 ->
  ProcessBlock fsb blk s = completionStep blk (appended blk s).
Proof.
  intros Hb Hle Hw. unfold ProcessBlock.
  unfold bind at 1. rewrite tweakStep_run, no_hook.
  unfold bind at 1. rewrite boundaryStep_run.
  replace ((lowBlockNum (self s) =? 0) && (99 <? Number blk)) with false
    by (destruct (N.eqb_spec (lowBlockNum (self s)) 0),
               (N.ltb_spec 99 (Number blk)); simpl; lia).
  unfold bind at 1. rewrite overflowStep_run.
  replace (u64 (lowBlockNum (self s) + 99) <? Number blk) with false
    by (unfold u64;
        destruct (N.ltb_spec ((lowBlockNum (self s) + 99) mod 2 ^ 64) (Number blk)); lia).
  unfold bind at 1. rewrite stopStep_run, no_stop. simpl.
  unfold bind. rewrite appendStep_run. reflexivity.
Qed.

(** A block inside the bundle, not its last, is appended. *)
Lemma ProcessBlock_appends :
  lowBlockNum (self s) ≠ 0 \/ Number blk <= 99 ->
  Number blk < lowBlockNum (self s) + 99 ->
  lowBlockNum (self s) + 99 < 2 ^ 64 ->
  call (ProcessBlock fsb blk) s = (None, appended blk s).
Proof.
  intros Hb Hlt Hw. unfold call.
  rewrite ProcessBlock_quiet_prefix by (assumption || lia).
  rewrite completionStep_run. simpl.
  replace (Number blk =? u64 (lowBlockNum (self s) + 99)) with false
    by (unfold u64;
        destruct (N.eqb_spec (Number blk) ((lowBlockNum (self s) + 99) mod 2 ^ 64)); lia).
  reflexivity.
Qed.


End QuietWriter.

(** A run of consecutive blocks that stays inside the bundle, short of its
    last number, is appended as it is. *)
Lemma feed_appends (fsb : N) (bs : list Block) : forall (s : world) (n0 : N),
  tweakBlock (self s) = None ->
  stopBlockNum (self s) = 0 ->
  numberedFrom n0 bs ->
  lowBlockNum (self s) ≠ 0 \/ n0 + N.of_nat (length bs) <= 100 ->
  n0 + N.of_nat (length bs) <= lowBlockNum (self s) + 99 ->
  lowBlockNum (self s) + 99 < 2 ^ 64 ->
  feed fsb bs s
  = (replicate (length bs) None,
     mkWorld (withBlocks (blocks (self s) ++ bs) (self s)) (trace s)).
Proof.
  induction bs as [|x bs IH]; intros s n0 Hh Hs Hnum Hb Hle Hw.
  - simpl. rewrite app_nil_r. destruct s as [[]]; reflexivity.
  - destruct Hnum as [Hx Hnum]. cbn [feed length] in *.
    rewrite ProcessBlock_appends by (assumption || lia).
    rewrite (IH _ (n0 + 1)); try assumption; simpl; try lia.
    rewrite <- app_assoc. reflexivity.
Qed.

(** ** A full bundle *)





(** ** A gap *)

(** Once the boundary is set, a block beyond the current bundle flushes the
    buffer, once, before anything else is done with the block. *)
Lemma overflow_flushes_once (fsb : N) (s : world) (blk b : Block) :
  tweakStep blk s = (Ok b, s) ->
  lowBlockNum (self s) ≠ 0 ->
  u64 (lowBlockNum (self s) + 99) < Number b ->
  blocks (self s) ≠ [] ->
  beforeStop fsb blk s
  = (match store (self s) (trace s) (filename (lowBlockNum (self s)))
             (blocks (self s)) with
     | Some cause => Err (ErrDownstream cause)
     | None => Ok b
     end, flushed s).
Proof.
  intros Ht Hlow Hn Hb. unfold beforeStop.
  unfold bind at 1. rewrite Ht.
  unfold bind at 1. rewrite boundaryStep_run.
  destruct (N.eqb_spec (lowBlockNum (self s)) 0); [contradiction|]. simpl.
  unfold bind. rewrite overflowStep_run.
  destruct (N.ltb_spec (u64 (lowBlockNum (self s) + 99)) (Number b)); [|lia].
  rewrite writeBundle_flush by exact Hb.
  destruct (store (self s) (trace s) _ _); reflexivity.
Qed.

(** C2, what the code does.  After blocks 0 to 49 the low boundary is still
    0, which the boundary step reads as "no boundary yet": block 150 is
    checked as a first block and refused, nothing is flushed and the block
    is not appended. *)
Theorem gap_in_first_bundle (fsb : N)
    (st : list event -> string -> list Block -> option string)
    (bs : list Block) (b150 : Block) :
  fsb ≠ 150 ->
  length bs = 50%nat ->
  numberedFrom 0 bs ->
  Number b150 = 150 ->
  feed fsb (bs ++ [b150]) (start (newWriter st 0 false None))
  = (replicate 50 None ++ [Some (ErrUnexpectedBlock b150 fsb)],
     mkWorld (mkWriter st 0 0 bs false None) []).
Proof.
  intros Hfsb Hlen Hnum H150.
  rewrite feed_app.
  rewrite (feed_appends fsb bs _ 0); simpl; try reflexivity; try assumption;
    try (rewrite Hlen; lia).
  rewrite Hlen.
  set (s1 := mkWorld _ _).
  cbn [feed fst snd]. unfold call.
  rewrite (ProcessBlock_first_boundary fsb s1 b150 b150)
    by (try reflexivity; rewrite H150; lia).
  rewrite H150.
  destruct (N.eqb_spec 150 fsb) as [Heq|_]; [congruence|].
  reflexivity.
Qed.

Lemma gap_in_first_bundle_witness :
  feed 0 (blocksFrom 0 50 ++ [blockAt 150]) (start (newWriter storeAccepts 0 false None))
  = (replicate 50 None ++ [Some (ErrUnexpectedBlock (blockAt 150) 0)],
     mkWorld (mkWriter storeAccepts 0 0 (blocksFrom 0 50) false None) []).
Proof.
  apply (gap_in_first_bundle 0 storeAccepts (blocksFrom 0 50) (blockAt 150)).
  - lia.
  - reflexivity.
  - vm_compute. repeat split.
  - reflexivity.
Defined.

(** ** The buffer invariant *)

Lemma flushed_in_range (s : world) : bufferInRange (self (flushed s)).
Proof. constructor. Qed.

Lemma writeBundle_in_range (s : world) :
  bufferInRange (self s) -> bufferInRange (self (snd (writeBundle s))).
Proof.
  intros Hs.
  destruct (writeBundle_cases s) as [[_ H]|[[_ H]|[_ [c H]]]]; rewrite H;
    [exact Hs|apply flushed_in_range..].
Qed.

(** Appending a block of the current bundle keeps the buffer in range,
    whatever the completion check then does. *)
Lemma append_in_range (b : Block) (s : world) :
  bufferInRange (self s) ->
  inBundle (lowBlockNum (self s)) b ->
  bufferInRange (self (snd ((appendStep b ;; completionStep b) s))).
Proof.
  intros Hs Hb. unfold bind. rewrite appendStep_run, completionStep_run.
  set (appended := mkWorld (withBlocks (blocks (self s) ++ [b]) (self s)) (trace s)).
  assert (Ha : bufferInRange (self appended)).
  { unfold bufferInRange, appended. simpl. apply Forall_app. split; [exact Hs|].
    constructor; [exact Hb|constructor]. }
  simpl. destruct (Number b =? _); [|exact Ha].
  destruct (_ && _ && _); [exact Ha|].
  apply writeBundle_in_range, Ha.
Qed.

Lemma stop_then_append_in_range (b : Block) (s : world) :
  bufferInRange (self s) ->
  inBundle (lowBlockNum (self s)) b ->
  bufferInRange (self (snd ((stopStep b ;; appendStep b ;; completionStep b) s))).
Proof.
  intros Hs Hb. unfold bind at 1. rewrite stopStep_run.
  destruct (_ && _); [exact Hs|].
  apply append_in_range; assumption.
Qed.

Lemma afterBoundary_in_range (b : Block) (s : world) :
  bufferInRange (self s) ->
  lowBlockNum (self s) <= Number b <= lowBlockNum (self s) + 199 ->
  Number b < 2 ^ 64 ->
  lowBlockNum (self s) + 99 < 2 ^ 64 ->
  bufferInRange (self (snd (afterBoundary b s))).
Proof.
  intros Hs Hn Hu Hw. unfold afterBoundary. unfold bind at 1.
  rewrite overflowStep_run.
  assert (Hwrap : u64 (lowBlockNum (self s) + 99) = lowBlockNum (self s) + 99)
    by (unfold u64; lia).
  rewrite Hwrap.
  destruct (N.ltb_spec (lowBlockNum (self s) + 99) (Number b)) as [Hov|Hov].
  - assert (Hnext : inBundle (lowBlockNum (self (flushed s))) b)
      by (unfold inBundle, flushed, u64; simpl; lia).
    destruct (writeBundle_cases s) as [[_ H]|[[_ H]|[_ [c H]]]]; rewrite H.
    + exact Hs.
    + apply stop_then_append_in_range; [apply flushed_in_range|exact Hnext].
    + apply flushed_in_range.
  - apply stop_then_append_in_range; [exact Hs|]. unfold inBundle. lia.
Qed.

Lemma ProcessBlock_in_range (fsb : N) (s : world) (blk : Block) :
  bufferInRange (self s) ->
  (forall b, tweakStep blk s = (Ok b, s) -> inOrder (self s) b) ->
  bufferInRange (self (snd (call (ProcessBlock fsb blk) s))).
Proof.
  intros Hs Hord.
  assert (Hcall : forall m : M unit, self (snd (call m s)) = self (snd (m s)))
    by (intros m; unfold call; destruct (m s) as [[[]|e] s']; reflexivity).
  rewrite Hcall. clear Hcall.
  change (ProcessBlock fsb blk)
    with (b <- tweakStep blk ;; boundaryStep fsb b ;; afterBoundary b).
  unfold bind at 1.
  destruct (tweakStep blk s) as [[b|e] s0] eqn:Ht; rewrite tweakStep_run in Ht;
    injection Ht as Ht <-; [|exact Hs].
  assert (Hb : inOrder (self s) b) by (apply Hord; reflexivity).
  destruct Hb as (Hfirst & Hn & Hu & Hw). unfold settledBoundary in Hn, Hw.
  unfold bind at 1. rewrite boundaryStep_run.
  destruct (N.eqb_spec (lowBlockNum (self s)) 0) as [Hlow|Hlow];
    destruct (N.ltb_spec 99 (Number b)) as [Hgt|Hgt]; simpl in *.
  - destruct (_ && _); [exact Hs|].
    apply afterBoundary_in_range; simpl; try assumption.
    unfold bufferInRange. simpl. rewrite (Hfirst Hlow Hgt). constructor.
  - apply afterBoundary_in_range; assumption.
  - apply afterBoundary_in_range; assumption.
  - apply afterBoundary_in_range; assumption.
Qed.

(** C4, amended.  In every world a new writer gets to through calls of
    [ProcessBlock] whose blocks arrive in order (the first boundary is set
    on an empty buffer only; each block lies in the bundle of the settled
    boundary or in the next one; no 64-bit wrap), every block of the buffer
    has its number between [lowBlockNum] and [lowBlockNum + 99]. *)
Theorem buffer_in_range (fsb : N) (s : world) :
  orderly fsb s -> bufferInRange (self s).
Proof.
  induction 1 as [w Hlow Hb|s blk Hs IH Hord].
  - unfold bufferInRange. simpl. rewrite Hb. constructor.
  - apply ProcessBlock_in_range; assumption.
Qed.

(** Blocks 100 and 101 in a new writer. *)
Lemma buffer_in_range_witness :
  let w := newWriter storeAccepts 0 true None in
  let s := snd (call (ProcessBlock 0 (blockAt 101))
                  (snd (call (ProcessBlock 0 (blockAt 100)) (start w)))) in
  blocks (self s) = [blockAt 100; blockAt 101] /\ bufferInRange (self s).
Proof.
  intros w s. split; [reflexivity|].
  apply (buffer_in_range 0).
  apply orderly_step; [apply orderly_step; [apply orderly_start; reflexivity|]|].
  - intros b Hb. vm_compute in Hb. injection Hb as <-.
    unfold inOrder, settledBoundary. simpl.
    split; [reflexivity|]. vm_compute. repeat split; discriminate.
  - intros b Hb. vm_compute in Hb. injection Hb as <-.
    unfold inOrder, settledBoundary. simpl.
    split; [discriminate|]. vm_compute. repeat split; discriminate.
Defined.

(** C4 as stated fails after a gap wider than a bundle: block 350 after
    block 100 flushes once, the boundary moves to 200 and block 350 is
    buffered under it. *)
Lemma buffer_out_of_range_after_gap :
  let s := snd (feed 0 [blockAt 100; blockAt 350]
                  (start (newWriter storeAccepts 0 false None))) in
  lowBlockNum (self s) = 200
  /\ blocks (self s) = [blockAt 350]
  /\ ~ bufferInRange (self s).
Proof.
  split; [reflexivity|]. split; [reflexivity|].
  intros H. apply Forall_inv in H. unfold inBundle in H.
  vm_compute in H. destruct H as [_ H]. apply H. reflexivity.
Qed.

(** * Further properties of the writer *)

(** ** Boundary arithmetic *)

(** X1.  [lowBoundary i] is the greatest multiple of 100 that is not above
    [i]: it is a multiple of 100, [i] lies less than 100 above it, every
    multiple of 100 up to [i] is at most it, and the subtraction of the
    source never wraps.  Applying it twice changes nothing. *)
Theorem lowBoundary_floor (i : N) :
  lowBoundary i mod 100 = 0
  /\ lowBoundary i <= i < lowBoundary i + 100
  /\ (forall m, m mod 100 = 0 -> m <= i -> m <= lowBoundary i)
  /\ lowBoundary (lowBoundary i) = lowBoundary i.
Proof.
  unfold lowBoundary. repeat split; intros; lia.
Qed.

(** ** File names *)

Lemma digitCount_least fuel : forall n k,
  (k < fuel)%nat -> 10 ^ N.of_nat k <= n -> (S k <= digitCount fuel n)%nat.
Proof.
  induction fuel as [|fuel IH]; intros n k Hk Hn; [lia|]. simpl.
  destruct (N.eqb_spec (n / 10) 0) as [Hq|Hq].
  - destruct k as [|k]; [lia|].
    rewrite Nat2N.inj_succ, N.pow_succ_r' in Hn.
    assert (10 ^ N.of_nat k ≠ 0) by (apply N.pow_nonzero; lia).
    lia.
  - destruct k as [|k]; [lia|]. apply le_n_S, IH; [lia|].
    rewrite Nat2N.inj_succ, N.pow_succ_r' in Hn. lia.
Qed.

Lemma digitCount_positive fuel n : (1 <= digitCount (S fuel) n)%nat.
Proof. simpl. destruct (n / 10 =? 0); lia. Qed.

Lemma isDigit_digitChar (d : N) : d < 10 -> isDigit (digitChar d).
Proof.
  intros Hd. unfold isDigit, digitChar. rewrite N_ascii_embedding by lia. lia.
Qed.

Lemma decimalDigits_allDigits fuel : forall n acc,
  allDigits acc -> allDigits (decimalDigits fuel n acc).
Proof.
  induction fuel as [|fuel IH]; intros n acc Hacc; simpl; [exact Hacc|].
  assert (Hd : isDigit (digitChar (n mod 10))) by (apply isDigit_digitChar; lia).
  destruct (n / 10 =? 0); [split; assumption|].
  apply IH. split; assumption.
Qed.

Lemma padZeros_allDigits k s : allDigits s -> allDigits (padZeros k s).
Proof.
  intros Hs. induction k as [|k IH]; simpl; [exact Hs|].
  split; [|exact IH]. unfold isDigit. simpl. lia.
Qed.

Lemma filename_allDigits (num : N) : allDigits (filename num).
Proof.
  unfold filename, formatUint.
  apply padZeros_allDigits, decimalDigits_allDigits. exact I.
Qed.

(** X2.  A file name consists of decimal digits only; it has at least ten
    characters, and exactly ten precisely for the numbers below 10^10. *)
Theorem filename_width (num : N) :
  num < 2 ^ 64 ->
  allDigits (filename num)
  /\ (10 <= String.length (filename num))%nat
  /\ (String.length (filename num) = 10%nat <-> num < 10 ^ 10).
Proof.
  intros Hn. split; [apply filename_allDigits|].
  unfold filename, formatUint.
  rewrite padZeros_length, decimalDigits_length.
  change (String.length EmptyString) with 0%nat.
  split; [lia|]. split.
  - intros Hlen. destruct (N.lt_ge_cases num (10 ^ 10)) as [Hlt|Hge]; [exact Hlt|].
    pose proof (digitCount_least 20 num 10 ltac:(lia) Hge). lia.
  - intros Hlt. pose proof (digitCount_bound 20 num 9 Hlt). lia.
Qed.

Lemma filename_width_witness :
  allDigits (filename 1234567)
  /\ (10 <= String.length (filename 1234567))%nat
  /\ (String.length (filename 1234567) = 10%nat <-> 1234567 < 10 ^ 10).
Proof. apply (filename_width 1234567). reflexivity. Defined.

(** X3.  Within 64 bits the name determines the number: read as a decimal
    numeral the name gives the number back, so two different low boundaries
    never share a file. *)
Theorem filename_distinct (n m : N) :
  n < 2 ^ 64 ->
  m < 2 ^ 64 ->
  decimalValue 0 (filename n) = n
  /\ (n ≠ m -> filename n ≠ filename m).
Proof.
  intros Hn Hm. split; [apply filename_value, Hn|].
  intros Hne Heq. apply Hne.
  rewrite <- (filename_value n Hn), <- (filename_value m Hm), Heq. reflexivity.
Qed.

Lemma filename_distinct_witness :
  decimalValue 0 (filename 300) = 300 /\ filename 300 ≠ filename 30000000000.
Proof.
  destruct (filename_distinct 300 30000000000) as [Hv Hd];
    [reflexivity|reflexivity|].
  split; [exact Hv|]. apply Hd. discriminate.
Defined.

Lemma decimalValue_shift (s : string) : forall acc,
  decimalValue acc s
  = acc * 10 ^ N.of_nat (String.length s) + decimalValue 0 s.
Proof.
  induction s as [|c s IH]; intros acc.
  - simpl. lia.
  - cbn [decimalValue String.length]. rewrite IH, (IH (10 * 0 + digitValue c)).
    rewrite Nat2N.inj_succ, N.pow_succ_r'. lia.
Qed.

Lemma decimalValue_below (s : string) :
  allDigits s -> decimalValue 0 s < 10 ^ N.of_nat (String.length s).
Proof.
  induction s as [|c s IH]; intros Hs.
  - simpl. lia.
  - destruct Hs as [Hc Hs]. specialize (IH Hs).
    cbn [decimalValue String.length]. rewrite decimalValue_shift.
    rewrite Nat2N.inj_succ, N.pow_succ_r'.
    unfold isDigit in Hc. unfold digitValue.
    generalize dependent (10 ^ N.of_nat (String.length s)). intros p Hp. nia.
Qed.

(** Among numerals of one length, the smaller number comes first in the
    order of strings. *)
Lemma digits_compare (s : string) : forall t,
  String.length s = String.length t ->
  allDigits s -> allDigits t ->
  decimalValue 0 s < decimalValue 0 t ->
  String.compare s t = Lt.
Proof.
  induction s as [|c s IH]; intros [|d t] Hlen Hs Ht Hlt; try discriminate.
  destruct Hs as [Hc Hs]. destruct Ht as [Hd Ht].
  injection Hlen as Hlen.
  cbn [decimalValue] in Hlt.
  rewrite (decimalValue_shift s), (decimalValue_shift t), <- Hlen in Hlt.
  pose proof (decimalValue_below s Hs) as Bs.
  pose proof (decimalValue_below t Ht) as Bt. rewrite <- Hlen in Bt.
  unfold isDigit in Hc, Hd. unfold digitValue in Hlt.
  cbn [String.compare]. unfold Ascii.compare.
  destruct (N.compare_spec (N_of_ascii c) (N_of_ascii d)) as [Heq|Hcd|Hcd].
  - apply IH; try assumption. rewrite Heq in Hlt. lia.
  - reflexivity.
  - exfalso. revert Hlt Bs Bt.
    generalize (10 ^ N.of_nat (String.length s)). intros p Hlt Bs Bt. nia.
Qed.

(** X4.  Below 10^10 the names sort like the numbers: the name of the
    smaller low boundary comes first in the order of strings. *)
Theorem filename_order (n m : N) :
  n < m ->
  m < 10 ^ 10 ->
  String.compare (filename n) (filename m) = Lt.
Proof.
  intros Hnm Hm.
  assert (Hn : n < 10 ^ 10) by lia.
  apply digits_compare.
  - rewrite !filename_length by assumption. reflexivity.
  - apply filename_allDigits.
  - apply filename_allDigits.
  - rewrite !filename_value by lia. exact Hnm.
Qed.

Lemma filename_order_witness :
  String.compare (filename 900) (filename 1000) = Lt.
Proof. apply (filename_order 900 1000); reflexivity. Defined.

(** Beyond ten digits the order of the names is no longer that of the
    numbers. *)
Example filename_order_beyond :
  String.compare (filename (10 ^ 10)) (filename 200) = Gt
  /\ String.compare (filename (10 ^ 10)) (filename 9999999900) = Lt.
Proof. split; reflexivity. Qed.

(** ** The duplicate scans on any buffer *)

Section FirstSeen.
Context {K : Type} `{Countable K}.
Variable key : Block -> K.

(** The keys of the map after the loop: those it had and those of [bs]. *)
Lemma firstSeen_dom (bs : list Block) : forall m : gmap K Block,
  dom (firstSeen key bs m) = dom m ∪ list_to_set (map key bs).
Proof.
  induction bs as [|b bs IH]; intros m; simpl.
  - rewrite (right_id_L ∅ (∪)). reflexivity.
  - destruct (m !! key b) as [first|] eqn:Hb; rewrite IH.
    + rewrite (assoc_L (∪)). f_equal. symmetry.
      rewrite (comm_L (∪)). apply subseteq_union_1_L.
      apply singleton_subseteq_l, elem_of_dom. eauto.
    + rewrite dom_insert_L, (assoc_L (∪)). f_equal. apply (comm_L (∪)).
Qed.
End FirstSeen.

Section ScanAnyBuffer.
Context {K : Type} `{Countable K}.
Variable key : Block -> K.
Variable report : K -> Block -> Block -> event.

Lemma firstWithKey_snoc (k : K) (b : Block) (l : list Block) :
  firstWithKey key k (l ++ [b])
  = match firstWithKey key k l with
    | Some x => Some x
    | None => if decide (key b = k) then Some b else None
    end.
Proof.
  induction l as [|x l IH]; simpl; [reflexivity|].
  destruct (decide (key x = k)); [reflexivity|exact IH].
Qed.

(** The map of the loop holds, under every key, the first block seen with
    it; so the loop reports what [collisions] says. *)
Lemma scanBlocks_collisions (bs : list Block) :
  forall (earlier : list Block) (m : gmap K Block),
    (forall k, m !! k = firstWithKey key k earlier) ->
    scanBlocks key report bs m = collisions key report earlier bs.
Proof.
  induction bs as [|b bs IH]; intros earlier m Hm; simpl; [reflexivity|].
  rewrite <- (Hm (key b)).
  destruct (m !! key b) as [first|] eqn:Hb; simpl; f_equal.
  - apply IH. intros k. rewrite firstWithKey_snoc, <- Hm.
    destruct (m !! k) eqn:Hk; [reflexivity|].
    destruct (decide (key b = k)) as [<-|]; [congruence|reflexivity].
  - apply IH. intros k. rewrite firstWithKey_snoc, <- Hm.
    destruct (decide (key b = k)) as [<-|Hne].
    + rewrite lookup_insert_eq, Hb. reflexivity.
    + rewrite lookup_insert_ne by exact Hne. destruct (m !! k); reflexivity.
Qed.

Lemma scanBlocks_silent (bs : list Block) : forall m : gmap K Block,
  scanBlocks key report bs m = []
  <-> NoDup (map key bs) /\ (forall k, k ∈ map key bs -> m !! k = None).
Proof.
  induction bs as [|b bs IH]; intros m; simpl.
  - split; [intros _|reflexivity]. split; [constructor|].
    intros k Hk. inversion Hk.
  - destruct (m !! key b) as [first|] eqn:Hb.
    + split; [discriminate|]. intros [_ Hm].
      rewrite (Hm (key b)) in Hb by apply list_elem_of_here. discriminate.
    + rewrite IH. split.
      * intros [Hnd Hm]. split.
        -- apply NoDup_cons. split; [|exact Hnd].
           intros Hin. specialize (Hm _ Hin).
           rewrite lookup_insert_eq in Hm. discriminate.
        -- intros k Hk. apply elem_of_cons in Hk as [->|Hk]; [exact Hb|].
           specialize (Hm _ Hk).
           destruct (decide (key b = k)) as [<-|Hne]; [exact Hb|].
           rewrite lookup_insert_ne in Hm by exact Hne. exact Hm.
      * intros [Hnd Hm]. apply NoDup_cons in Hnd as [Hnin Hnd].
        split; [exact Hnd|]. intros k Hk.
        rewrite lookup_insert_ne by (intros Heq; subst k; contradiction).
        apply Hm, list_elem_of_further, Hk.
Qed.

(** Every block is either reported or the first of its key. *)
Lemma scanBlocks_count (bs : list Block) : forall m : gmap K Block,
  (length (scanBlocks key report bs m) + size (firstSeen key bs m)
   = length bs + size m)%nat.
Proof.
  induction bs as [|b bs IH]; intros m; simpl; [reflexivity|].
  destruct (m !! key b) as [first|] eqn:Hb; simpl; rewrite IH.
  - lia.
  - rewrite map_size_insert_None by exact Hb. lia.
Qed.
End ScanAnyBuffer.

(** X5.  Whatever the buffer holds, the duplicate-number scan logs one line
    for every block whose number an earlier block of the buffer has, in
    buffer order, and each line names that block and the first block of the
    buffer with the number; the duplicate-id scan does the same with ids. *)
Theorem scans_report_against_first (s : world) :
  call checkDuplicateNumbers s
  = (None, mkWorld (self s)
             (trace s ++ collisions Number LogDuplicateNumber [] (blocks (self s))))
  /\ call checkDuplicateIds s
  = (None, mkWorld (self s)
             (trace s ++ collisions Id LogDuplicateId [] (blocks (self s)))).
Proof.
  unfold call. rewrite scan_numbers_run, scan_ids_run.
  rewrite (scanBlocks_collisions Number LogDuplicateNumber _ [])
    by (intros k; apply lookup_empty).
  rewrite (scanBlocks_collisions Id LogDuplicateId _ [])
    by (intros k; apply lookup_empty).
  split; reflexivity.
Qed.

(** Three blocks with one number: the second and the third are each
    reported against the first. *)
Example three_blocks_one_number :
  let a := mkBlock 7 "a" EmptyString in
  let b := mkBlock 7 "b" EmptyString in
  let c := mkBlock 7 "c" EmptyString in
  collisions Number LogDuplicateNumber [] [a; b; c]
  = [LogDuplicateNumber 7 b a; LogDuplicateNumber 7 c a].
Proof. reflexivity. Qed.

(** X6.  A scan logs nothing exactly when the keys are pairwise distinct:
    the duplicate-number scan leaves the trace as it is if and only if no
    two blocks of the buffer share a number, the duplicate-id scan if and
    only if no two share an id. *)
Theorem scans_silent_iff_distinct (s : world) :
  (call checkDuplicateNumbers s = (None, s)
   <-> NoDup (map Number (blocks (self s))))
  /\ (call checkDuplicateIds s = (None, s)
      <-> NoDup (map Id (blocks (self s)))).
Proof.
  assert (Hworld : forall logged,
    (None : option error, mkWorld (self s) (trace s ++ logged)) = (None, s)
    <-> logged = []).
  { intros logged. split.
    - intros Heq. injection Heq as Heq. destruct s as [w tr]. simpl in Heq.
      injection Heq as Heq. apply (app_inv_head tr). rewrite app_nil_r. exact Heq.
    - intros ->. rewrite app_nil_r, world_eta. reflexivity. }
  unfold call. rewrite scan_numbers_run, scan_ids_run.
  split; rewrite Hworld, scanBlocks_silent; split.
  - intros [Hnd _]. exact Hnd.
  - intros Hnd. split; [exact Hnd|]. intros; apply lookup_empty.
  - intros [Hnd _]. exact Hnd.
  - intros Hnd. split; [exact Hnd|]. intros; apply lookup_empty.
Qed.

(** X7.  The number of lines a scan logs is the number of blocks of the
    buffer less the number of different keys among them. *)
Theorem scans_count (bs : list Block) :
  (length (scanBlocks Number LogDuplicateNumber bs ∅)
   + size (list_to_set (map Number bs) : gset N) = length bs)%nat
  /\ (length (scanBlocks Id LogDuplicateId bs ∅)
      + size (list_to_set (map Id bs) : gset string) = length bs)%nat.
Proof.
  split.
  - pose proof (scanBlocks_count Number LogDuplicateNumber bs ∅) as Hc.
    rewrite <- size_dom, firstSeen_dom, dom_empty_L, map_size_empty in Hc.
    rewrite (left_id_L ∅ (∪)) in Hc. lia.
  - pose proof (scanBlocks_count Id LogDuplicateId bs ∅) as Hc.
    rewrite <- size_dom, firstSeen_dom, dom_empty_L, map_size_empty in Hc.
    rewrite (left_id_L ∅ (∪)) in Hc. lia.
Qed.

(** ** The four changes a call makes to the world

    A call of [ProcessBlock] changes the world only by setting the first
    boundary, flushing a non-empty buffer, appending the block and logging
    the scans.  A predicate [I] kept by the first two, turned into [J] by
    the append and [J] kept by flush and log, therefore holds after the
    call: [J] when the call returns [nil], [I] or [J] when it fails. *)
Section Changes.
Variable fsb : N.
Variable s : world.
Variable blk : Block.
Variables I J : world -> Prop.

Hypothesis I_boundary : forall b s0,
  tweakStep blk s = (Ok b, s) ->
  I s0 ->
  lowBlockNum (self s0) = 0 ->
  99 < Number b ->
  Number b mod 100 = 0 \/ Number b = fsb ->
  I (mkWorld (withLowBlockNum (lowBoundary (Number b)) (self s0)) (trace s0)).

Hypothesis I_flush : forall b s0,
  tweakStep blk s = (Ok b, s) ->
  I s0 ->
  blocks (self s0) ≠ [] ->
  u64 (lowBlockNum (self s0) + 99) < Number b ->
  I (flushed s0).

Hypothesis I_append : forall b s1,
  tweakStep blk s = (Ok b, s) ->
  I s1 ->
  ~ (0 < stopBlockNum (self s1) /\ stopBlockNum (self s1) <= Number b) ->
  J (appended b s1).

Hypothesis J_flush : forall b s2,
  tweakStep blk s = (Ok b, s) ->
  J s2 ->
  blocks (self s2) ≠ [] ->
  Number b = u64 (lowBlockNum (self s2) + 99) ->
  J (flushed s2).

Hypothesis J_log : forall s2,
  J s2 -> J (mkWorld (self s2) (trace s2 ++ scanLog (self s2))).

Lemma ProcessBlock_changes :
  I s ->
  match fst (call (ProcessBlock fsb blk) s) with
  | None => J (snd (call (ProcessBlock fsb blk) s))
  | Some _ =>
      I (snd (call (ProcessBlock fsb blk) s))
      \/ J (snd (call (ProcessBlock fsb blk) s))
  end.
Proof.
  intros Hs.
  set (post := fun p : option error * world =>
                 match fst p with
                 | None => J (snd p)
                 | Some _ => I (snd p) \/ J (snd p)
                 end).
  set (outcome := fun p : result unit * world =>
                    match p with
                    | (Ok _, s') => (None, s')
                    | (Err e, s') => (Some e, s')
                    end).
  change (post (outcome (ProcessBlock fsb blk s))).
  change (ProcessBlock fsb blk)
    with (b <- tweakStep blk ;; boundaryStep fsb b ;; afterBoundary b).
  unfold bind at 1.
  pose proof (tweakStep_run blk s) as Ht. rewrite Ht.
  destruct (match tweakBlock (self s) with
            | Some f => match f blk with
                        | inl cause => Err (ErrTweakingBlock cause)
                        | inr b => Ok b
                        end
            | None => Ok blk
            end) as [b|e]; [|left; exact Hs].
  (* from the stop check on *)
  assert (Hstop : forall s1, I s1 ->
    post (outcome ((stopStep b ;; appendStep b ;; completionStep b) s1))).
  { intros s1 H1. unfold bind at 1. rewrite stopStep_run.
    assert (Hgo : ~ (0 < stopBlockNum (self s1) /\ stopBlockNum (self s1) <= Number b) ->
      post (outcome ((appendStep b ;; completionStep b) s1))).
    { intros Hns. unfold bind. rewrite appendStep_run, completionStep_run.
      assert (H2 : J (appended b s1)) by (apply I_append; assumption).
      destruct (N.eqb_spec (Number b) (u64 (lowBlockNum (self (appended b s1)) + 99)))
        as [Hc|Hc]; [|exact H2].
      destruct (_ && _ && _).
      { right. unfold snd, outcome. rewrite <- app_assoc. apply (J_log _ H2). }
      destruct (writeBundle_cases (appended b s1))
        as [[He _]|[[Hne Hw]|[Hne [c Hw]]]].
      - simpl in He. destruct (blocks (self s1)); discriminate.
      - rewrite Hw. apply (J_flush b); assumption.
      - rewrite Hw. right. apply (J_flush b); assumption. }
    destruct (N.ltb_spec 0 (stopBlockNum (self s1))) as [Hp|Hp];
      destruct (N.leb_spec (stopBlockNum (self s1)) (Number b)) as [Hq|Hq];
      simpl; try (apply Hgo; lia).
    left. exact H1. }
  (* from the overflow step on *)
  assert (Hrest : forall s0, I s0 -> post (outcome (afterBoundary b s0))).
  { intros s0 H0. unfold afterBoundary. unfold bind at 1. rewrite overflowStep_run.
    destruct (N.ltb_spec (u64 (lowBlockNum (self s0) + 99)) (Number b)) as [Hov|Hov].
    - destruct (writeBundle_cases s0) as [[_ Hw]|[[Hne Hw]|[Hne [c Hw]]]]; rewrite Hw.
      + left. exact H0.
      + apply Hstop. apply (I_flush b); assumption.
      + left. apply (I_flush b); assumption.
    - apply Hstop, H0. }
  unfold bind at 1. rewrite boundaryStep_run.
  destruct (N.eqb_spec (lowBlockNum (self s)) 0) as [Hlow|Hlow];
    destruct (N.ltb_spec 99 (Number b)) as [Hgt|Hgt]; simpl;
    try apply (Hrest s Hs).
  destruct (N.eqb_spec (Number b mod 100) 0) as [Hm|Hm];
    destruct (N.eqb_spec (Number b) fsb) as [Hf|Hf]; simpl;
    try (apply Hrest, (I_boundary b); auto; fail).
  left. exact Hs.
Qed.
End Changes.

Lemma feed_keeps (fsb : N) (Inv : world -> Prop) :
  (forall s blk, Inv s -> Inv (snd (call (ProcessBlock fsb blk) s))) ->
  forall bs s, Inv s -> Inv (snd (feed fsb bs s)).
Proof.
  intros Hstep. induction bs as [|blk bs IH]; intros s Hs; [exact Hs|].
  cbn [feed]. specialize (Hstep s blk Hs).
  destruct (call (ProcessBlock fsb blk) s) as [r s1]. simpl in Hstep.
  specialize (IH s1 Hstep).
  destruct (feed fsb bs s1) as [rs s2]. exact IH.
Qed.

Lemma tweakStep_handedOn (s : world) (blk b : Block) :
  tweakStep blk s = (Ok b, s) <-> handedOn (self s) blk = inr b.
Proof.
  rewrite tweakStep_run. unfold handedOn.
  destruct (tweakBlock (self s)) as [f|].
  - destruct (f blk); split; intros Heq; try discriminate; congruence.
  - split; intros Heq; congruence.
Qed.

(** ** The hook *)

(** X8.  When the hook refuses the block, [ProcessBlock] returns the hook's
    error wrapped as a tweaking error and the world is as before: no
    boundary set, nothing appended, nothing written or logged. *)
Theorem hook_failure (fsb : N) (s : world) (blk : Block)
    (f : Block -> string + Block) (cause : string) :
  tweakBlock (self s) = Some f ->
  f blk = inl cause ->
  call (ProcessBlock fsb blk) s = (Some (ErrTweakingBlock cause), s).
Proof.
  intros Hf Hc. unfold call, ProcessBlock. unfold bind at 1.
  rewrite tweakStep_run, Hf, Hc. reflexivity.
Qed.

Lemma hook_failure_witness :
  let refuse := fun _ : Block => inl "bad block"%string : string + Block in
  let s := mkWorld (mkWriter storeAccepts 100 0 [blockAt 100] true (Some refuse)) [] in
  call (ProcessBlock 0 (blockAt 199)) s = (Some (ErrTweakingBlock "bad block"), s).
Proof.
  intros refuse s.
  apply (hook_failure 0 s (blockAt 199) refuse "bad block"); reflexivity.
Defined.

(** ** What a call leaves alone *)

Lemma sameConfig_refl (w : mergedBlocksWriter) : sameConfig w w.
Proof. repeat split. Qed.

Lemma ProcessBlock_sameConfig (fsb : N) (w : mergedBlocksWriter) (s : world)
    (blk : Block) :
  sameConfig w (self s) ->
  sameConfig w (self (snd (call (ProcessBlock fsb blk) s))).
Proof.
  intros Hs.
  pose proof (ProcessBlock_changes fsb s blk
                (fun s' => sameConfig w (self s'))
                (fun s' => sameConfig w (self s'))) as Hch.
  simpl in Hch.
  assert (Hgoal : match fst (call (ProcessBlock fsb blk) s) with
                  | None => sameConfig w (self (snd (call (ProcessBlock fsb blk) s)))
                  | Some _ =>
                      sameConfig w (self (snd (call (ProcessBlock fsb blk) s)))
                      \/ sameConfig w (self (snd (call (ProcessBlock fsb blk) s)))
                  end).
  { apply Hch; try (intros; assumption). }
  destruct (fst (call (ProcessBlock fsb blk) s)); tauto.
Qed.

(** X9.  No sequence of calls changes the configuration of the writer: the
    store, the stop limit, the size-check flag and the hook are those it was
    built with, whatever the calls return. *)
Theorem configuration_kept (fsb : N) (bs : list Block) (s : world) :
  sameConfig (self s) (self (snd (feed fsb bs s))).
Proof.
  apply (feed_keeps fsb (fun s' => sameConfig (self s) (self s')));
    [|apply sameConfig_refl].
  intros s1 blk H1. apply ProcessBlock_sameConfig, H1.
Qed.

(** ** What reaches the store *)

Lemma writes_app (tr1 tr2 : list event) :
  writes (tr1 ++ tr2) = writes tr1 ++ writes tr2.
Proof.
  induction tr1 as [|ev tr1 IH]; simpl; [reflexivity|].
  destruct ev; simpl; rewrite IH; reflexivity.
Qed.

Lemma writes_scanBlocks_numbers (bs : list Block) : forall m,
  writes (scanBlocks Number LogDuplicateNumber bs m) = [].
Proof.
  induction bs as [|b bs IH]; intros m; simpl; [reflexivity|].
  destruct (m !! Number b); simpl; apply IH.
Qed.

Lemma writes_scanBlocks_ids (bs : list Block) : forall m,
  writes (scanBlocks Id LogDuplicateId bs m) = [].
Proof.
  induction bs as [|b bs IH]; intros m; simpl; [reflexivity|].
  destruct (m !! Id b); simpl; apply IH.
Qed.

Lemma writes_scanLog (w : mergedBlocksWriter) : writes (scanLog w) = [].
Proof.
  unfold scanLog.
  rewrite writes_app, writes_scanBlocks_numbers, writes_scanBlocks_ids.
  reflexivity.
Qed.

Lemma writes_after_flush (s : world) :
  writes (trace (flushed s))
  = writes (trace s) ++ [(filename (lowBlockNum (self s)), blocks (self s))].
Proof.
  unfold flushed. simpl. rewrite writes_app. simpl.
  destruct (store (self s) (trace s) _ _); reflexivity.
Qed.

Lemma accepted_flushed (s : world) : accepted (flushed s) = accepted s.
Proof.
  unfold accepted, written. rewrite writes_after_flush.
  rewrite map_app, concat_app. simpl. rewrite !app_nil_r. reflexivity.
Qed.

Lemma accepted_appended (b : Block) (s : world) :
  accepted (appended b s) = accepted s ++ [b].
Proof. unfold accepted. simpl. apply app_assoc. Qed.

Lemma accepted_logged (s : world) :
  accepted (mkWorld (self s) (trace s ++ scanLog (self s))) = accepted s.
Proof.
  unfold accepted, written. simpl.
  rewrite writes_app, writes_scanLog, app_nil_r. reflexivity.
Qed.


Lemma feed_cons (fsb : N) (blk : Block) (bs : list Block) (s : world) :
  feed fsb (blk :: bs) s
  = (fst (call (ProcessBlock fsb blk) s)
       :: fst (feed fsb bs (snd (call (ProcessBlock fsb blk) s))),
     snd (feed fsb bs (snd (call (ProcessBlock fsb blk) s)))).
Proof.
  cbn [feed]. destruct (call (ProcessBlock fsb blk) s) as [r s1].
  cbn [fst snd]. destruct (feed fsb bs s1) as [rs s2]. reflexivity.
Qed.



Lemma feed_keeps_for (fsb : N) (Inv : world -> Prop) (Q : Block -> Prop) :
  (forall s blk, Q blk -> Inv s -> Inv (snd (call (ProcessBlock fsb blk) s))) ->
  forall bs s, Forall Q bs -> Inv s -> Inv (snd (feed fsb bs s)).
Proof.
  intros Hstep. induction bs as [|blk bs IH]; intros s HQ Hs; [exact Hs|].
  apply Forall_cons in HQ as [Hq HQ].
  rewrite feed_cons. cbn [snd]. apply IH; [exact HQ|]. apply Hstep; assumption.
Qed.

(** From a predicate that a call keeps in both of its phases. *)
Lemma ProcessBlock_keeps (fsb : N) (s : world) (blk : Block) (Inv : world -> Prop) :
  (forall b s0, tweakStep blk s = (Ok b, s) -> Inv s0 ->
     lowBlockNum (self s0) = 0 -> 99 < Number b ->
     Inv (mkWorld (withLowBlockNum (lowBoundary (Number b)) (self s0)) (trace s0))) ->
  (forall b s0, tweakStep blk s = (Ok b, s) -> Inv s0 ->
     blocks (self s0) ≠ [] ->
     u64 (lowBlockNum (self s0) + 99) < Number b
     \/ Number b = u64 (lowBlockNum (self s0) + 99) ->
     Inv (flushed s0)) ->
  (forall b s1, tweakStep blk s = (Ok b, s) -> Inv s1 ->
     ~ (0 < stopBlockNum (self s1) /\ stopBlockNum (self s1) <= Number b) ->
     Inv (appended b s1)) ->
  (forall s2, Inv s2 -> Inv (mkWorld (self s2) (trace s2 ++ scanLog (self s2)))) ->
  Inv s ->
  Inv (snd (call (ProcessBlock fsb blk) s)).
Proof.
  intros Hbound Hflush Happend Hlog Hs.
  pose proof (ProcessBlock_changes fsb s blk Inv Inv) as Hch.
  assert (Hgoal : match fst (call (ProcessBlock fsb blk) s) with
                  | None => Inv (snd (call (ProcessBlock fsb blk) s))
                  | Some _ => Inv (snd (call (ProcessBlock fsb blk) s))
                              \/ Inv (snd (call (ProcessBlock fsb blk) s))
                  end).
  { apply Hch; try assumption.
    - intros b s0 Hb H0 Hl Hn _. apply (Hbound b); assumption.
    - intros b s0 Hb H0 Hne Hov. apply (Hflush b); auto.
    - intros b s2 Hb H2 Hne Hc. apply (Hflush b); auto. }
  destruct (fst (call (ProcessBlock fsb blk) s)); tauto.
Qed.


(** X12.  With a stop limit, no block at or beyond the limit is ever kept:
    after any blocks fed to a new writer, every block in the buffer and in
    the bundles handed to the store has a number below the stop limit. *)
Theorem stop_limit_bounds (fsb : N)
    (st : list event -> string -> list Block -> option string)
    (stop : N) (check : bool) (tweak : option (Block -> string + Block))
    (bs : list Block) :
  0 < stop ->
  Forall (fun b => Number b < stop)
    (accepted (snd (feed fsb bs (start (newWriter st stop check tweak))))).
Proof.
  intros Hstop.
  set (Inv := fun s => stopBlockNum (self s) = stop
                       /\ Forall (fun b => Number b < stop) (accepted s)).
  assert (Hfin : Inv (snd (feed fsb bs (start (newWriter st stop check tweak))))).
  { apply (feed_keeps fsb Inv); [|split; [reflexivity|constructor]].
    intros s blk Hs. apply ProcessBlock_keeps; try exact Hs; unfold Inv.
    - intros b s0 _ H0 _ _. exact H0.
    - intros b s0 _ [H0 H0'] _ _. split; [exact H0|].
      rewrite accepted_flushed. exact H0'.
    - intros b s1 _ [H1 H1'] Hns. split; [exact H1|].
      rewrite accepted_appended. apply Forall_app. split; [exact H1'|].
      constructor; [|constructor]. rewrite H1 in Hns. lia.
    - intros s2 [H2 H2']. split; [exact H2|].
      rewrite accepted_logged. exact H2'. }
  exact (proj2 Hfin).
Qed.

(** Blocks 200 to 310 with a stop limit of 300. *)
Lemma stop_limit_bounds_witness :
  let s := snd (feed 0 (blocksFrom 200 111)
                  (start (newWriter storeAccepts 300 true None))) in
  writes (trace s) = [("0000000200"%string, blocksFrom 200 100)]
  /\ blocks (self s) = []
  /\ Forall (fun b => Number b < 300) (accepted s).
Proof.
  intros s. split; [reflexivity|]. split; [reflexivity|].
  apply (stop_limit_bounds 0 storeAccepts 300 true None (blocksFrom 200 111)).
  reflexivity.
Defined.

(** X13.  The low boundary stays a multiple of 100 and so does every file:
    when the numbers of the blocks (as the hook hands them on) are at least
    200 below 2^64, then after any blocks fed to a new writer [lowBlockNum]
    is a multiple of 100 and every call of the store was made under the
    name of a multiple of 100. *)
Theorem boundary_stays_aligned (fsb : N)
    (st : list event -> string -> list Block -> option string)
    (stop : N) (check : bool) (tweak : option (Block -> string + Block))
    (bs : list Block) :
  let w := newWriter st stop check tweak in
  Forall (fun blk => forall b, handedOn w blk = inr b -> Number b + 200 < 2 ^ 64) bs ->
  lowBlockNum (self (snd (feed fsb bs (start w)))) mod 100 = 0
  /\ Forall alignedWrite (writes (trace (snd (feed fsb bs (start w))))).
Proof.
  intros w Hbs.
  set (Inv := fun s => tweakBlock (self s) = tweak
                       /\ lowBlockNum (self s) mod 100 = 0
                       /\ lowBlockNum (self s) + 199 < 2 ^ 64
                       /\ Forall alignedWrite (writes (trace s))).
  assert (Hfin : Inv (snd (feed fsb bs (start w)))).
  { apply (feed_keeps_for fsb Inv
             (fun blk => forall b, handedOn w blk = inr b -> Number b + 200 < 2 ^ 64));
      [|exact Hbs|repeat split; try reflexivity; constructor].
    intros s blk Hq Hs.
    assert (Hn : forall b, tweakStep blk s = (Ok b, s) -> Number b + 200 < 2 ^ 64).
    { intros b Hb. apply Hq. apply tweakStep_handedOn in Hb.
      unfold handedOn in *. destruct Hs as [Ht _]. rewrite Ht in Hb. exact Hb. }
    apply ProcessBlock_keeps; try exact Hs; unfold Inv.
    - intros b s0 Hb (H0 & _ & _ & H3) _ _. specialize (Hn b Hb).
      simpl. unfold lowBoundary. repeat split; try assumption; lia.
    - intros b s0 Hb (H0 & H1 & H2 & H3) _ Hc. specialize (Hn b Hb).
      rewrite writes_after_flush. simpl. unfold u64 in *.
      repeat split; try assumption; try lia.
      apply Forall_app. split; [exact H3|]. constructor; [|constructor].
      exists (lowBlockNum (self s0)). split; [exact H1|reflexivity].
    - intros b s1 _ H1 _. exact H1.
    - intros s2 (H0 & H1 & H2 & H3). simpl.
      rewrite writes_app, writes_scanLog, app_nil_r. repeat split; assumption. }
  destruct Hfin as (_ & H1 & _ & H3). split; assumption.
Qed.

(** The first streamable block 150, the last block 199 of its bundle,
    block 200 and, after a gap, block 420. *)
Lemma boundary_stays_aligned_witness :
  let bs := [blockAt 150; blockAt 199; blockAt 200; blockAt 420] in
  let s := snd (feed 150 bs (start (newWriter storeAccepts 0 false None))) in
  lowBlockNum (self s) = 300
  /\ lowBlockNum (self s) mod 100 = 0
  /\ Forall alignedWrite (writes (trace s)).
Proof.
  intros bs s. split; [reflexivity|].
  apply (boundary_stays_aligned 150 storeAccepts 0 false None bs).
  unfold bs.
  repeat (constructor; [intros b Hb; injection Hb as <-; reflexivity|]).
  constructor.
Defined.

(** ** Gaps *)



Lemma ProcessBlock_empty_overflow (fsb : N) (s : world) (blk : Block) :
  tweakBlock (self s) = None ->
  lowBlockNum (self s) ≠ 0 ->
  blocks (self s) = [] ->
  u64 (lowBlockNum (self s) + 99) < Number blk ->
  call (ProcessBlock fsb blk) s = (Some ErrNoBlocksToWrite, s).
Proof.
  intros Hh Hlow Hb Hov. unfold call, ProcessBlock.
  unfold bind at 1. rewrite tweakStep_run, Hh.
  unfold bind at 1. rewrite boundaryStep_run.
  destruct (N.eqb_spec (lowBlockNum (self s)) 0) as [|_]; [contradiction|]. simpl.
  unfold bind at 1. rewrite overflowStep_run.
  destruct (N.ltb_spec (u64 (lowBlockNum (self s) + 99)) (Number blk)); [|lia].
  rewrite writeBundle_empty by exact Hb. reflexivity.
Qed.

(** X15.  A bundle without any block stops the writer for good: with the
    boundary set and the buffer empty, every block beyond the current
    bundle is refused with the no-blocks error and the world stays as it
    is, so no later block gets through either. *)
Theorem empty_bundle_stops_writer (fsb : N) (s : world) (bs : list Block) :
  tweakBlock (self s) = None ->
  lowBlockNum (self s) ≠ 0 ->
  blocks (self s) = [] ->
  Forall (fun b => u64 (lowBlockNum (self s) + 99) < Number b) bs ->
  feed fsb bs s = (replicate (length bs) (Some ErrNoBlocksToWrite), s).
Proof.
  intros Hh Hlow Hb. induction bs as [|blk bs IH]; intros Hbs; [reflexivity|].
  apply Forall_cons in Hbs as [Hblk Hbs].
  rewrite feed_cons, ProcessBlock_empty_overflow by assumption.
  cbn [fst snd]. rewrite (IH Hbs). reflexivity.
Qed.

(** The bundle 100 to 199 is complete; the chain goes on at 300. *)
Lemma empty_bundle_stops_writer_witness :
  let s := snd (feed 0 (blocksFrom 100 100) (start (newWriter storeAccepts 0 true None))) in
  feed 0 (blocksFrom 300 5) s = (replicate 5 (Some ErrNoBlocksToWrite), s).
Proof.
  intros s.
  apply (empty_bundle_stops_writer 0 s (blocksFrom 300 5)).
  - reflexivity.
  - vm_compute. discriminate.
  - reflexivity.
  - vm_compute. repeat constructor.
Defined.

(** ** The first block *)

(** X16.  A new writer without hook and stop limit accepts as its first
    block a block numbered up to 99, a multiple of 100 or the first
    streamable block (here not on the last number of a bundle): the low
    boundary becomes the multiple of 100 at or below the number, the block
    is buffered and nothing is written. *)
Theorem first_block_accepted (fsb : N)
    (st : list event -> string -> list Block -> option string)
    (check : bool) (blk : Block) :
  Number blk <= 99 \/ Number blk mod 100 = 0 \/ Number blk = fsb ->
  Number blk mod 100 ≠ 99 ->
  Number blk + 99 < 2 ^ 64 ->
  call (ProcessBlock fsb blk) (start (newWriter st 0 check None))
  = (None, mkWorld (mkWriter st (lowBoundary (Number blk)) 0 [blk] check None) []).
Proof.
  intros Hok Hlast Hw.
  destruct (N.le_gt_cases (Number blk) 99) as [Hle|Hgt].
  - rewrite ProcessBlock_appends; simpl; try reflexivity; try lia.
    unfold appended, lowBoundary. simpl.
    replace (Number blk - Number blk mod 100) with 0 by lia. reflexivity.
  - unfold call.
    rewrite (ProcessBlock_first_boundary fsb _ blk blk); try reflexivity; [|lia].
    replace (negb (Number blk mod 100 =? 0) && negb (Number blk =? fsb)) with false
      by (destruct (N.eqb_spec (Number blk mod 100) 0),
                   (N.eqb_spec (Number blk) fsb); simpl; try reflexivity; lia).
    unfold afterBoundary.
    unfold bind at 1. rewrite overflowStep_run. simpl.
    replace (u64 (Number blk - Number blk mod 100 + 99) <? Number blk) with false
      by (unfold u64;
          destruct (N.ltb_spec ((Number blk - Number blk mod 100 + 99) mod 2 ^ 64)
                      (Number blk)); lia).
    unfold bind at 1. rewrite stopStep_run. simpl.
    unfold bind. rewrite appendStep_run, completionStep_run. simpl.
    replace (Number blk =? u64 (Number blk - Number blk mod 100 + 99)) with false
      by (unfold u64;
          destruct (N.eqb_spec (Number blk)
                      ((Number blk - Number blk mod 100 + 99) mod 2 ^ 64)); lia).
    reflexivity.
Qed.

(** A chain whose first streamable block is 9820210. *)
Lemma first_block_accepted_witness :
  call (ProcessBlock 9820210 (blockAt 9820210)) (start (newWriter storeAccepts 0 true None))
  = (None, mkWorld (mkWriter storeAccepts 9820200 0 [blockAt 9820210] true None) []).
Proof.
  apply (first_block_accepted 9820210 storeAccepts true (blockAt 9820210)).
  - right. right. reflexivity.
  - vm_compute. discriminate.
  - reflexivity.
Defined.

(** ** Order of arrival *)

(** X17.  The writer does not check the order of arrival.  With the
    boundary set, no hook and no stop limit, every block numbered below
    [lowBlockNum + 99] is appended and the call returns [nil]: also a block
    below the low boundary, and a block whose number is in the buffer
    already. *)
Theorem no_order_check (fsb : N) (s : world) (blk : Block) :
  tweakBlock (self s) = None ->
  stopBlockNum (self s) = 0 ->
  lowBlockNum (self s) ≠ 0 ->
  lowBlockNum (self s) + 99 < 2 ^ 64 ->
  Number blk < lowBlockNum (self s) + 99 ->
  call (ProcessBlock fsb blk) s = (None, appended blk s).
Proof.
  intros Hh Hstop Hlow Hw Hn.
  apply ProcessBlock_appends; try assumption. left. exact Hlow.
Qed.

(** After blocks 200 and 201: block 150, then block 201 again. *)
Lemma no_order_check_witness :
  let s := snd (feed 0 [blockAt 200; blockAt 201]
                  (start (newWriter storeAccepts 0 true None))) in
  blocks (self (snd (feed 0 [blockAt 150; blockAt 201] s)))
  = [blockAt 200; blockAt 201; blockAt 150; blockAt 201]
  /\ call (ProcessBlock 0 (blockAt 150)) s = (None, appended (blockAt 150) s).
Proof.
  intros s. split; [reflexivity|].
  apply (no_order_check 0 s (blockAt 150)).
  - reflexivity.
  - reflexivity.
  - vm_compute. discriminate.
  - reflexivity.
  - reflexivity.
Defined.
